(** * Front end of the hybrid n-gram / neural text generator

    A shallow embedding of the TypeScript services and stores that build
    generation requests, validate them, poll training jobs and keep the
    generation history, together with the properties the specification
    states about them.

    Conventions of the embedding.
    - A JavaScript number is an exact rational ([Qc]); only finite values
      are represented and floating-point rounding is not modelled, except
      where a function is also given on binary64 numbers.
    - A division is partial ([js_div]): it has no result when the divisor
      is zero, which is where JavaScript would produce [NaN] or an
      infinity.  Code that divides lives in the [option] monad.
    - A JavaScript string is the list of its code points ([jsstring]);
      string literals of the source are written [lit "..."].
    - An optional property ([x?: T]) is an [option]; [None] is [undefined].
    - An object literal used as a request body is a finite map from
      property names to values. *)

From Stdlib Require Import QArith Qcanon Qround ZArith List String Ascii Lia Lqa.
From Stdlib Require Import PrimFloat FloatOps SpecFloat Uint63.
From stdpp Require Import base decidable option numbers list sorting strings pretty gmap.

Local Open Scope Z_scope.

(** ** JavaScript values *)

Abbreviation jsstring := (list N).

Definition lit (s : string) : jsstring :=
  map N_of_ascii (list_ascii_of_string s).

(** The decimal literal [n/d], e.g. [0.33] is [decimal 33 100]. *)
Definition decimal (n : Z) (d : positive) : Qc := Q2Qc (n # d).

(** [x / y]; no result when [y] is zero. *)
Definition js_div (x y : Qc) : option Qc :=
  if decide (y = 0%Qc) then None else Some (x / y)%Qc.


(** *** Double precision

    Where a result depends on how a double rounds, the same code is also
    run on binary64 numbers: [double_of_nat] is the double of a length or
    a count (exact below 2^53) and [double_value] is the exact value of
    a finite double, with no value for an infinity or [NaN]. *)



(** [Array.prototype.join]. *)
Fixpoint join (sep : jsstring) (parts : list jsstring) : jsstring :=
  match parts with
  | [] => []
  | [p] => p
  | p :: rest => p ++ sep ++ join sep rest
  end.


(** [s.split(c)] for a separator of one code point: [cur] is the piece
    being read. *)
Fixpoint split_char_from (sep : N) (cur : jsstring) (s : jsstring)
  : list jsstring :=
  match s with
  | [] => [cur]
  | c :: s' =>
      if (c =? sep)%N then cur :: split_char_from sep [] s'
      else split_char_from sep (cur ++ [c]) s'
  end.

Definition split_char (sep : N) (s : jsstring) : list jsstring :=
  split_char_from sep [] s.

(** [s.length]: the number of UTF-16 code units of a string, two for a
    code point outside the basic plane. *)
Definition utf16_length (s : jsstring) : nat :=
  sum_list (map (λ c, if (65535 <? c)%N then 2%nat else 1%nat) s).

Inductive JsValue :=
| JStr (s : jsstring)
| JNum (x : Qc).

(** What a [catch] clause can receive: a plain [Error], or the [ApiError]
    of the API client with its HTTP status. *)
Inductive JsError :=
| Error (message : jsstring)
| ApiError (message : jsstring) (status : Z).

Definition error_message (e : JsError) : jsstring :=
  match e with Error m | ApiError m _ => m end.

Definition is_ApiError (e : JsError) : bool :=
  match e with ApiError _ _ => true | Error _ => false end.

(** The predicates of the class [ApiError], on its status. *)
Definition isNetworkError (status : Z) : bool := status =? 0.
Definition isServerError (status : Z) : bool := 500 <=? status.
Definition isClientError (status : Z) : bool := (400 <=? status) && (status <? 500).
Definition isNotFound (status : Z) : bool := status =? 404.
Definition isUnauthorized (status : Z) : bool := status =? 401.
Definition isForbidden (status : Z) : bool := status =? 403.

(** ** services/generation.service.ts *)

Module GenerationService.

Record GenerationRequest := {
  prompt : option jsstring;
  temperature : option Qc;
  max_tokens : option Qc;
  top_p : option Qc;
  model : option jsstring;
  neural_weight : option Qc;
  bigram_weight : option Qc;
  trigram_weight : option Qc;
  tetragram_weight : option Qc;
}.

Record GenerationResponse := {
  generated_text : jsstring;
  valid_mask : option (list bool);
}.

(** [validateGenerationParams]: the list of error messages, in the order
    they are pushed. *)
Definition validateGenerationParams (params : GenerationRequest) : list jsstring :=
  let errors := [] in
  let errors :=
    match temperature params with
    | Some t =>
        if bool_decide (t < 0 ∨ 2 < t)%Qc
        then errors ++ [lit "Temperature must be between 0 and 2"]
        else errors
    | None => errors
    end in
  let errors :=
    match max_tokens params with
    | Some m =>
        if bool_decide (m < 1 ∨ Qc_of_Z 10000 < m)%Qc
        then errors ++ [lit "Max tokens must be between 1 and 10,000"]
        else errors
    | None => errors
    end in
  let errors :=
    match top_p params with
    | Some p =>
        if bool_decide (p < 0 ∨ 1 < p)%Qc
        then errors ++ [lit "Top-p must be between 0 and 1"]
        else errors
    | None => errors
    end in
  errors.

(** [a || ''] on an optional string: the empty string is falsy. *)
Definition or_empty (a : option jsstring) : jsstring :=
  match a with
  | Some (c :: s) => c :: s
  | Some [] | None => []
  end.

(** The object literal that [generateText] posts to [/api/generate]. *)
Definition request_body (params : GenerationRequest) : gmap string JsValue :=
  <["prompt" := JStr (or_empty (prompt params))]>
  (<["temperature" := JNum (default (decimal 7 10) (temperature params))]>
  (<["max_tokens" := JNum (default (Qc_of_Z 100) (max_tokens params))]>
  (<["top_p" := JNum (default (decimal 9 10) (top_p params))]>
  (<["model" := JStr (default (lit "default") (model params))]>
  (<["neural_weight" := JNum (default (decimal 8 10) (neural_weight params))]>
  (<["bigram_weight" := JNum (default (decimal 2 10) (bigram_weight params))]>
  (<["trigram_weight" := JNum (default (decimal 3 10) (trigram_weight params))]>
  (<["tetragram_weight" := JNum (default (decimal 5 10) (tetragram_weight params))]>
   ∅)))))))).






(** [formatGeneratedText]: the words between single spaces, those the
    mask marks [false] put in brackets; a word without an entry in the
    mask is left as it is. *)
Definition formatGeneratedText (text : jsstring) (validMask : option (list bool))
  : jsstring :=
  match validMask with
  | None | Some [] => text
  | Some validMask =>
      let words := split_char 32 text in
      let formatted :=
        imap (λ index word,
                match validMask !! index with
                | Some false => lit "[" ++ word ++ lit "]"
                | Some true | None => word
                end) words in
      join (lit " ") formatted
  end.


(** *** The API client as an effect

    [apiClient.post] is an effect on the outside world.  The world is
    abstract; [backend] says how it answers a request.  The requests
    issued so far are logged next to the world. *)

Record ApiCall := { endpoint : string; body : gmap string JsValue }.

Section api.
Context {World : Type}.
Variable backend : ApiCall → World → (jsstring * Z + GenerationResponse) * World.

Record Net := { world : World; sent : list ApiCall }.

Definition Api (A : Type) : Type := Net → (JsError + A) * Net.

Definition throw {A} (e : JsError) : Api A := λ n, (inl e, n).

Definition try_catch {A} (m : Api A) (handler : JsError → Api A) : Api A :=
  λ n, match m n with
       | (inr a, n') => (inr a, n')
       | (inl e, n') => handler e n'
       end.

(** [apiClient.post]: the request is issued; every failure (an HTTP
    status that is not ok, a network failure) surfaces as an [ApiError]
    with its message and status. *)
Definition post (ep : string) (b : gmap string JsValue) : Api GenerationResponse :=
  λ n,
    let call := {| endpoint := ep; body := b |} in
    let '(answer, w) := backend call (world n) in
    let n' := {| world := w; sent := sent n ++ [call] |} in
    match answer with
    | inr data => (inr data, n')
    | inl (message, status) => (inl (ApiError message status), n')
    end.

(** [generateText]. *)
Definition generateText (params : GenerationRequest) : Api GenerationResponse :=
  try_catch
    (let errors := validateGenerationParams params in
     if bool_decide (0 < length errors)%nat
     then throw (Error (join (lit ", ") errors))
     else post "/api/generate" (request_body params))
    (λ error,
       if is_ApiError error
       then throw (Error (lit "Generation failed: " ++ error_message error))
       else throw error).
End api.

End GenerationService.

(** ** pages/Generate.tsx *)

Module GeneratePage.
Import GenerationService.




End GeneratePage.

(** ** Whitespace and words

    [trim], [split(/\s+/)] and the white space of ECMAScript. *)

Definition is_whitespace (c : N) : bool :=
  ((9 <=? c) && (c <=? 13) || (c =? 32) || (c =? 160) || (c =? 5760)
   || (8192 <=? c) && (c <=? 8202) || (c =? 8232) || (c =? 8233)
   || (c =? 8239) || (c =? 8287) || (c =? 12288) || (c =? 65279))%N.

Fixpoint trimStart (s : jsstring) : jsstring :=
  match s with
  | c :: s' => if is_whitespace c then trimStart s' else s
  | [] => []
  end.

Definition trim (s : jsstring) : jsstring :=
  rev (trimStart (rev (trimStart s))).

(** [s.split(/\s+/)]: [cur] is the piece being read, [in_run] tells that
    the previous code point was white space. *)
Fixpoint split_ws_from (in_run : bool) (cur : jsstring) (s : jsstring)
  : list jsstring :=
  match s with
  | [] => [cur]
  | c :: s' =>
      if is_whitespace c
      then if in_run then split_ws_from true cur s'
           else cur :: split_ws_from true [] s'
      else split_ws_from false (cur ++ [c]) s'
  end.

Definition split_ws (s : jsstring) : list jsstring := split_ws_from false [] s.

(** [s.trim().split(/\s+/).filter(w => w.length > 0)]. *)
Definition words_of (s : jsstring) : list jsstring :=
  filter (λ w, (0 < length w)%nat) (split_ws (trim s)).

(** ** store/generationStore.ts *)

Module GenerationStore.

Record GenerationParams := {
  prompt : jsstring;
  temperature : Qc;
  max_tokens : Qc;
  neural_weight : Qc;
  bigram_weight : Qc;
  trigram_weight : Qc;
  tetragram_weight : Qc;
}.

Record GenerationResult := {
  id : jsstring;
  timestamp : Z;
  params : GenerationParams;
  text : jsstring;
  validMask : list bool;
  validPercentage : Qc;
  totalWords : nat;
  validWords : nat;
  duration : Z;
}.

Inductive GenerationStatus := idle | generating | completed | error.

Record GenerationState := {
  status : GenerationStatus;
  currentGeneration : option GenerationResult;
  history : list GenerationResult;
  error_text : option jsstring;
  isStreaming : bool;
  streamedTokens : jsstring;
}.

(** What [localStorage] holds under [HISTORY_KEY], seen through
    [JSON.parse]: the text of an array, of another value, or no JSON. *)
Inductive Stored :=
| StoredArray (h : list GenerationResult)
| StoredOther
| StoredMalformed.

Record Store := {
  state : GenerationState;
  savedHistory : option Stored;
}.


(** The store as [create] builds it. *)
Definition initial (saved : option Stored) : Store :=
  {| state := {| status := idle; currentGeneration := None; history := [];
                 error_text := None; isStreaming := false; streamedTokens := [] |};
     savedHistory := saved |}.












Section generate.
Context {World : Type}.
Variable backend : GenerationService.ApiCall → World →
  (jsstring * Z + GenerationService.GenerationResponse) * World.

End generate.




End GenerationStore.

(** ** services/training.service.ts *)

Module TrainingService.

(** The [status] of a [TrainingProgress]. *)
Inductive ProgressStatus := queued | running | success | error.

Definition status_name (s : ProgressStatus) : jsstring :=
  match s with
  | queued => lit "queued"
  | running => lit "running"
  | success => lit "success"
  | error => lit "error"
  end.

Record TrainingProgress := {
  progress : Qc;
  message : jsstring;
  status : ProgressStatus;
  error_detail : option jsstring;
}.

(** The statuses of a training job as the specification lists them. *)
Definition job_statuses : list jsstring :=
  [lit "queued"; lit "running"; lit "paused"; lit "success"; lit "error"].

(** [memory_usage] is kept as the number of mebibytes, not as the text
    that [toFixed(2)] prints. *)
Record TrainingStats := {
  total_patterns : nat;
  unique_patterns : nat;
  memory_usage : Qc;
}.

(** The class [[A-Z ]] of the regular expression. *)
Definition in_A_Z_space (c : N) : bool :=
  ((65 <=? c) && (c <=? 90) || (c =? 32))%N.

Section normalizer.
(** The upper-case mapping of Unicode, from a code point to the code
    points that replace it (one, or several as for the sharp s). *)
Variable upper : N → list N.

Definition toUpperCase (s : jsstring) : jsstring := flat_map upper s.

(** [text.toUpperCase().replace(/[^A-Z ]/g, '')]. *)
Definition cleanText (text : jsstring) : jsstring :=
  filter (λ c, in_A_Z_space c = true) (toUpperCase text).

(** [calculateStats]. *)
Definition calculateStats (text : jsstring) : TrainingStats :=
  let cleanedText := cleanText text in
  let patterns := filter (λ word, (0 < length word)%nat) (split_ws cleanedText) in
  {| total_patterns := length patterns;
     unique_patterns := size (list_to_set patterns : gset jsstring);
     memory_usage := (Qc_of_Z (Z.of_nat (length cleanedText))
                      / Qc_of_Z 1024 / Qc_of_Z 1024)%Qc |}.
End normalizer.

(** The mapping on Basic Latin and the sharp s; other code points are
    left as they are. *)
Definition latin_upper (c : N) : list N :=
  if ((97 <=? c) && (c <=? 122))%N then [(c - 32)%N]
  else if (c =? 223)%N then [83%N; 83%N]
  else [c].

(** *** Validation and the training end points *)

Record TrainingConfig := {
  text : jsstring;
  block_size : option Qc;
  epochs : option Qc;
  save_after_blocks : option Qc;
}.

Record TrainingJobResponse := { job_id : jsstring }.

(** A number in a condition: [undefined] and 0 are falsy. *)
Definition truthy_number (x : option Qc) : bool :=
  match x with
  | Some x => negb (bool_decide (x = 0%Qc))
  | None => false
  end.

(** [x || d] on an optional number. *)
Definition or_number (x : option Qc) (d : Qc) : Qc :=
  match x with
  | Some x => if bool_decide (x = 0%Qc) then d else x
  | None => d
  end.

(** [validateConfig]. *)
Definition validateConfig (config : TrainingConfig) : list jsstring :=
  let errors := [] in
  let errors :=
    if bool_decide (text config = []) || bool_decide (trim (text config) = [])
    then errors ++ [lit "Training text is required"]
    else errors in
  let errors :=
    if negb (bool_decide (text config = []))
       && bool_decide (utf16_length (text config) < 100)%nat
    then errors ++ [lit "Training text should be at least 100 characters"]
    else errors in
  let errors :=
    if truthy_number (block_size config)
       && match block_size config with
          | Some b => bool_decide (b < Qc_of_Z 1000 ∨ Qc_of_Z 1000000 < b)%Qc
          | None => false
          end
    then errors ++ [lit "Block size must be between 1,000 and 1,000,000"]
    else errors in
  let errors :=
    if truthy_number (epochs config)
       && match epochs config with
          | Some e => bool_decide (e < 1 ∨ Qc_of_Z 100 < e)%Qc
          | None => false
          end
    then errors ++ [lit "Epochs must be between 1 and 100"]
    else errors in
  errors.

Inductive Method := GET | POST.

Record Request := {
  method : Method;
  url : jsstring;
  payload : option (gmap string JsValue);
}.

(** The body [startTraining] posts. *)
Definition training_body (config : TrainingConfig) : gmap string JsValue :=
  <["text" := JStr (text config)]>
  (<["block_size" := JNum (or_number (block_size config) (Qc_of_Z 100000))]>
  (<["epochs" := JNum (or_number (epochs config) (Qc_of_Z 5))]> ∅)).

Section training_api.
Context {World : Type}.
(** How the server answers a submission and a progress query. *)
Variable submitted : Request → World → (jsstring * Z + TrainingJobResponse) * World.
Variable queried : Request → World → (jsstring * Z + TrainingProgress) * World.

Record Net := { world : World; sent : list Request }.

Definition Api (A : Type) : Type := Net → (JsError + A) * Net.

Definition throw {A} (e : JsError) : Api A := λ n, (inl e, n).

Definition ret {A} (a : A) : Api A := λ n, (inr a, n).

Definition bind {A B} (m : Api A) (k : A → Api B) : Api B :=
  λ n, match m n with
       | (inr a, n') => k a n'
       | (inl e, n') => (inl e, n')
       end.

Definition try_catch {A} (m : Api A) (handler : JsError → Api A) : Api A :=
  λ n, match m n with
       | (inr a, n') => (inr a, n')
       | (inl e, n') => handler e n'
       end.

(** [apiClient.request]: the request is issued, and a failure surfaces
    as an [ApiError]. *)
Definition request {R} (answer : Request → World → (jsstring * Z + R) * World)
    (r : Request) : Api R :=
  λ n,
    let '(a, w) := answer r (world n) in
    let n' := {| world := w; sent := sent n ++ [r] |} in
    match a with
    | inr data => (inr data, n')
    | inl (message, status) => (inl (ApiError message status), n')
    end.

(** [startTraining]. *)
Definition startTraining (config : TrainingConfig) : Api jsstring :=
  try_catch
    (bind (request submitted
             {| method := POST; url := lit "/api/train";
                payload := Some (training_body config) |})
          (λ response, ret (job_id response)))
    (λ error,
       if is_ApiError error
       then throw (Error (lit "Failed to start training: " ++ error_message error))
       else throw error).

End training_api.

(** *** [pollProgress]

    The poller between its [await]s.  [in_flight] counts the calls of
    [poll] that wait for [getProgress], [pending] the [setTimeout]s that
    have not fired, [requests] the calls of [getProgress] so far and
    [reported] what [onProgress] was called with, oldest first.  The
    caller's [onProgress] is taken to return normally. *)
Record Poller := {
  stopped : bool;
  in_flight : nat;
  pending : nat;
  requests : nat;
  reported : list TrainingProgress;
}.

(** [poll] up to its [await]. *)
Definition poll (s : Poller) : Poller :=
  if stopped s then s
  else {| stopped := false; in_flight := S (in_flight s); pending := pending s;
          requests := S (requests s); reported := reported s |}.

(** The poller when [pollProgress] returns: [poll] has been called. *)
Definition pollProgress : Poller :=
  poll {| stopped := false; in_flight := 0; pending := 0; requests := 0;
          reported := [] |}.

Definition is_done (p : TrainingProgress) : bool :=
  match status p with
  | success | error => true
  | queued | running => false
  end.

(** What [onProgress] gets when [getProgress] throws. *)
Definition failure_report (e : JsError) : TrainingProgress :=
  {| progress := 0%Qc;
     message := lit "Failed to get progress";
     status := error;
     error_detail := Some (error_message e) |}.

(** [poll] from its [await] on, with the outcome of [getProgress]. *)
Definition poll_answered (outcome : JsError + TrainingProgress) (s : Poller)
  : Poller :=
  match in_flight s with
  | O => s
  | S k =>
      match outcome with
      | inr p =>
          {| stopped := if is_done p then true else stopped s;
             in_flight := k;
             pending := if is_done p then pending s else S (pending s);
             requests := requests s;
             reported := reported s ++ [p] |}
      | inl e =>
          {| stopped := true; in_flight := k; pending := pending s;
             requests := requests s;
             reported := reported s ++ [failure_report e] |}
      end
  end.

(** A [setTimeout(poll, interval)] fires. *)
Definition timer_fires (s : Poller) : Poller :=
  match pending s with
  | O => s
  | S k => poll {| stopped := stopped s; in_flight := in_flight s; pending := k;
                   requests := requests s; reported := reported s |}
  end.

(** The function [pollProgress] returns is called. *)
Definition stop_called (s : Poller) : Poller :=
  {| stopped := true; in_flight := in_flight s; pending := pending s;
     requests := requests s; reported := reported s |}.

Inductive PollEvent :=
| TimerFires
| Answered (outcome : JsError + TrainingProgress)
| StopCalled.

Definition poll_event (s : Poller) (e : PollEvent) : Poller :=
  match e with
  | TimerFires => timer_fires s
  | Answered outcome => poll_answered outcome s
  | StopCalled => stop_called s
  end.

(** The poller is quiet: nothing is in flight and no timer is pending. *)
Definition quiet (s : Poller) : Prop := in_flight s = 0%nat ∧ pending s = 0%nat.

End TrainingService.

(** ** store/polling.ts *)

Module PollingManager.

(** The manager and, next to it, the interval timers of the runtime:
    [timers] maps each live handle to the job whose callback it runs,
    [next_handle] is the handle the next [setInterval] returns. *)
Record Manager := {
  intervals : gmap string positive;
  active : gset string;
  timers : gmap positive string;
  next_handle : positive;
}.

Definition empty : Manager :=
  {| intervals := ∅; active := ∅; timers := ∅; next_handle := 1%positive |}.

Definition stop (jobId : string) (m : Manager) : Manager :=
  let m :=
    match intervals m !! jobId with
    | Some interval =>
        {| intervals := delete jobId (intervals m);
           active := active m;
           timers := delete interval (timers m);
           next_handle := next_handle m |}
    | None => m
    end in
  {| intervals := intervals m;
     active := active m ∖ {[jobId]};
     timers := timers m;
     next_handle := next_handle m |}.

Definition start (jobId : string) (m : Manager) : Manager :=
  let m := stop jobId m in
  let interval := next_handle m in
  {| intervals := <[jobId := interval]> (intervals m);
     active := active m ∪ {[jobId]};
     timers := <[interval := jobId]> (timers m);
     next_handle := Pos.succ interval |}.

Definition stopAll (m : Manager) : Manager :=
  foldl (λ m jobId, stop jobId m) m (map fst (map_to_list (intervals m))).

Definition isPolling (jobId : string) (m : Manager) : bool :=
  bool_decide (jobId ∈ active m).

Definition getActiveJobs (m : Manager) : list string := elements (active m).

(** The interval callback of handle [h] fires: a callback whose job is
    no longer active stops itself, otherwise the job's own callback runs
    and the manager is left as it is. *)
Definition fire (h : positive) (m : Manager) : Manager :=
  match timers m !! h with
  | Some jobId => if isPolling jobId m then m else stop jobId m
  | None => m
  end.

Inductive Op :=
| Start (jobId : string)
| Stop (jobId : string)
| StopAll
| Fire (h : positive).

Definition apply_op (m : Manager) (o : Op) : Manager :=
  match o with
  | Start j => start j m
  | Stop j => stop j m
  | StopAll => stopAll m
  | Fire h => fire h m
  end.

Definition run (ops : list Op) : Manager := foldl apply_op empty ops.

(** Whether, after one more operation, the last [start] of [jobId] has
    not been followed by a [stop] of it or a [stopAll]. *)
Definition track (jobId : string) (b : bool) (o : Op) : bool :=
  match o with
  | Start j => if decide (j = jobId) then true else b
  | Stop j => if decide (j = jobId) then false else b
  | StopAll => false
  | Fire _ => b
  end.

Definition started (jobId : string) (ops : list Op) : bool :=
  foldl (track jobId) false ops.

(** The manager and the runtime agree: the jobs with a registered
    interval are the active ones, the registered handles are the live
    timers, each running the callback of its job, and handles are fresh. *)
Definition consistent (m : Manager) : Prop :=
  dom (intervals m) = active m
  ∧ (∀ j h, intervals m !! j = Some h ↔ timers m !! h = Some j)
  ∧ (∀ h j, timers m !! h = Some j → (h < next_handle m)%positive).

End PollingManager.

(** ** store/trainingStore.ts *)

Module TrainingStore.

(** [status] is a [TrainingStatus] at compile time; at run time it holds
    whatever string the server reported, so it is kept as a string. *)
Record TrainingState := {
  jobId : option jsstring;
  progress : Qc;
  message : jsstring;
  status : jsstring;
}.

(** The store, the module variable [pollTimer] ([true] while it holds an
    interval handle), the [localStorage] item under [STORAGE_KEY], and the
    number of interval callbacks that are suspended at their [await],
    waiting for the answer of the server. *)
Record Store := {
  state : TrainingState;
  pollTimer : bool;
  saved : option jsstring;
  awaiting : nat;
}.

(** The JSON answer of [GET /api/train/<jobId>]; an absent property, or
    one of another type than expected, is [None]. *)
Record ProgressData := {
  data_progress : option Qc;
  data_message : option jsstring;
  data_status : option jsstring;
}.

(** What one poll gets back: an exception of [fetch] or of [res.json()],
    a response that is not ok, or the parsed data. *)
Inductive Fetched :=
| FetchThrew
| NotOk (http_status : Z)
| Json (data : ProgressData).

(** What [POST /api/train] gets back in [start]. *)
Inductive Submitted :=
| SubmitThrew
| JobId (job_id : jsstring).

Definition initial (saved_item : option jsstring) : Store :=
  {| state := {| jobId := None; progress := 0%Qc; message := []; status := lit "idle" |};
     pollTimer := false;
     saved := saved_item;
     awaiting := 0 |}.

(** A string in a condition: [null] and the empty string are falsy. *)
Definition truthy (s : option jsstring) : bool :=
  match s with
  | Some (_ :: _) => true
  | Some [] | None => false
  end.

Definition is_terminal (s : jsstring) : bool :=
  bool_decide (s = lit "success") || bool_decide (s = lit "error").

Definition stopPolling (s : Store) : Store :=
  {| state := state s; pollTimer := false; saved := saved s; awaiting := awaiting s |}.

Definition startPolling (s : Store) : Store :=
  {| state := state s; pollTimer := true; saved := saved s; awaiting := awaiting s |}.

Definition removeItem (s : Store) : Store :=
  {| state := state s; pollTimer := pollTimer s; saved := None; awaiting := awaiting s |}.

Definition set_state (f : TrainingState → TrainingState) (s : Store) : Store :=
  {| state := f (state s); pollTimer := pollTimer s; saved := saved s;
     awaiting := awaiting s |}.

(** The interval callback of [startPolling] up to its [await fetch]: it
    stops the polling of a store without job or with a terminal status,
    and otherwise sends the request and waits. *)
Definition poll_begin (s : Store) : Store :=
  if negb (truthy (jobId (state s))) || is_terminal (status (state s))
  then stopPolling s
  else {| state := state s; pollTimer := pollTimer s; saved := saved s;
          awaiting := S (awaiting s) |}.

(** The callback from its [await] on, run when the answer is there. *)
Definition poll_answer (f : Fetched) (s : Store) : Store :=
  match f with
  | FetchThrew => s
  | NotOk code =>
      if bool_decide (code = 404)
      then stopPolling (removeItem (set_state (λ t,
             {| jobId := jobId t; progress := Qc_of_Z 100;
                message := lit "Job not found"; status := lit "error" |}) s))
      else s
  | Json data =>
      let done :=
        match data_status data with
        | Some st => is_terminal st
        | None => false
        end
        || match data_progress data with
           | Some p => bool_decide (Qc_of_Z 100 ≤ p)%Qc
           | None => false
           end in
      let s := set_state (λ t,
             {| jobId := jobId t;
                progress := default 0%Qc (data_progress data);
                message := default [] (data_message data);
                status := if done then default (lit "success") (data_status data)
                          else lit "running" |}) s in
      if done then removeItem (stopPolling s) else s
  end.

(** The interval fires only while the timer is held. *)
Definition tick (s : Store) : Store :=
  if pollTimer s then poll_begin s else s.

(** An answer arrives for one of the suspended callbacks. *)
Definition answer (f : Fetched) (s : Store) : Store :=
  match awaiting s with
  | O => s
  | S k => poll_answer f {| state := state s; pollTimer := pollTimer s;
                            saved := saved s; awaiting := k |}
  end.

Definition clear (s : Store) : Store :=
  {| state := {| jobId := None; progress := 0%Qc; message := []; status := lit "idle" |};
     pollTimer := false;
     saved := None;
     awaiting := awaiting s |}.

(** [start]; the answer of the [POST] is taken at once. *)
Definition start (r : Submitted) (s : Store) : Store :=
  let s := stopPolling s in
  let s := set_state (λ t,
             {| jobId := jobId t; progress := 0%Qc;
                message := lit "Submitting job" ++ [8230%N]; status := lit "queued" |}) s in
  match r with
  | SubmitThrew => s
  | JobId j =>
      let s := {| state := state s; pollTimer := pollTimer s; saved := Some j;
                  awaiting := awaiting s |} in
      let s := set_state (λ t,
                 {| jobId := Some j; progress := 0%Qc;
                    message := lit "Queued"; status := lit "running" |}) s in
      startPolling s
  end.

Definition resume (s : Store) : Store :=
  if truthy (saved s) && negb (bool_decide (jobId (state s) = saved s))
  then startPolling (set_state (λ t,
         {| jobId := saved s; progress := progress t;
            message := message t; status := lit "running" |}) s)
  else s.

(** What can happen to a job once it is being followed, short of the
    user starting another job or clearing the store. *)
Inductive Event :=
| Tick
| Answer (f : Fetched)
| Resume.

Definition apply_event (s : Store) (e : Event) : Store :=
  match e with
  | Tick => tick s
  | Answer f => answer f s
  | Resume => resume s
  end.

(** A store at rest: no timer is held, no job is saved for a later
    resume, no callback is waiting. *)
Definition at_rest (s : Store) : Prop :=
  pollTimer s = false ∧ saved s = None ∧ awaiting s = 0%nat.

(** [start] in its two halves, before and after the [await] of the
    [POST]: other steps may run in between. *)
Definition start_begin (s : Store) : Store :=
  set_state (λ t,
    {| jobId := jobId t; progress := 0%Qc;
       message := lit "Submitting job" ++ [8230%N]; status := lit "queued" |})
    (stopPolling s).

Definition start_answered (r : Submitted) (s : Store) : Store :=
  match r with
  | SubmitThrew => s
  | JobId j =>
      let s := {| state := state s; pollTimer := pollTimer s; saved := Some j;
                  awaiting := awaiting s |} in
      let s := set_state (λ t,
                 {| jobId := Some j; progress := 0%Qc;
                    message := lit "Queued"; status := lit "running" |}) s in
      startPolling s
  end.

(** Everything that can happen to the store: the events of a job and
    the actions of the user. *)
Inductive Command :=
| Job (e : Event)
| StartBegins
| StartAnswered (r : Submitted)
| ClearJob.

Definition apply_command (s : Store) (c : Command) : Store :=
  match c with
  | Job e => apply_event s e
  | StartBegins => start_begin s
  | StartAnswered r => start_answered r s
  | ClearJob => clear s
  end.

End TrainingStore.

(** ** The n-gram model and the blender of the generation core *)

Module NGram.

(** Modelled from the spec: the n-gram model of the generation core
    (section 4.1), whose code is not among the sources.  The alphabet is
    the 26 upper-case letters and the space; [count] is the cumulative
    observation count of a record, zero for an absent record. *)
Definition alphabet : list N := map N.of_nat (seq 65 26) ++ [32%N].

Definition count (m : gmap (nat * jsstring * N) nat)
    (order : nat) (context : jsstring) (s : N) : nat :=
  default 0%nat (m !! (order, context, s)).

Definition observations (m : gmap (nat * jsstring * N) nat)
    (order : nat) (context : jsstring) : nat :=
  sum_list (map (count m order context) alphabet).

Inductive CoreError := InvalidArgument.

Definition valid_order (order : nat) : bool :=
  bool_decide (order ∈ [2%nat; 3%nat; 4%nat]).

(** Modelled from the spec: [probabilities(order, context)], the counts
    of the context divided by their sum, the uniform distribution for a
    context without observation, and an [InvalidArgument] error for an
    order outside 2, 3, 4. *)
Definition probabilities (m : gmap (nat * jsstring * N) nat)
    (order : nat) (context : jsstring) : CoreError + list (N * Qc) :=
  if valid_order order
  then
    let total := observations m order context in
    inr (map (λ s,
                (s, if decide (total = 0%nat)
                    then (1 / Qc_of_Z (Z.of_nat (length alphabet)))%Qc
                    else (Qc_of_Z (Z.of_nat (count m order context s))
                          / Qc_of_Z (Z.of_nat total))%Qc))
             alphabet)
  else inl InvalidArgument.

(** The sum of a list of numbers. *)
Definition total_mass (d : list Qc) : Qc := foldr Qcplus 0%Qc d.


End NGram.

(** ** store/monteCarloStore.ts *)

Module MonteCarloStore.

Record SimulationResult := {
  validPercentage : Qc;
  totalWords : nat;
  validWords : nat;
  text : jsstring;
}.

(** [stdDev] is kept as its square, the variance: the square root of a
    rational number need not be one. *)
Record SimulationStats := {
  mean : Qc;
  median : Qc;
  stdDev_squared : Qc;
  min : Qc;
  max : Qc;
}.

(** [a.reduce((a, b) => a + b, 0)]. *)
Definition sum (l : list Qc) : Qc := foldl Qcplus 0%Qc l.

(** [Math.min(...l)] and [Math.max(...l)] of a list that is not empty. *)
Definition Math_min (l : list Qc) : option Qc :=
  match l with
  | [] => None
  | x :: l => Some (foldl (λ a b, if decide (b < a)%Qc then b else a) x l)
  end.

Definition Math_max (l : list Qc) : option Qc :=
  match l with
  | [] => None
  | x :: l => Some (foldl (λ a b, if decide (a < b)%Qc then b else a) x l)
  end.

(** [calculateStats]: the inner [None] is [null]; there is no result at
    all when a division has a zero divisor or an index is out of range. *)
Definition calculateStats (results : list SimulationResult)
  : option (option SimulationStats) :=
  if bool_decide (length results = 0%nat) then Some None
  else
    let percentages := map validPercentage results in
    let percentages := merge_sort Qcle percentages in
    let n := Qc_of_Z (Z.of_nat (length percentages)) in
    mean ← js_div (sum percentages) n;
    median ← percentages !! (length percentages / 2)%nat;
    let squaredDiffs := map (λ x, (x - mean) * (x - mean))%Qc percentages in
    variance ← js_div (sum squaredDiffs) n;
    lo ← Math_min percentages;
    hi ← Math_max percentages;
    Some (Some {| mean := mean; median := median; stdDev_squared := variance;
                  min := lo; max := hi |}).

(** *** The store and [runSimulation] *)

(** The parameters of a run; [numSims] is a number of simulations. *)
Record MonteCarloParams := {
  numSims : nat;
  charsPerGen : Qc;
  temperature : Qc;
  prompt : jsstring;
  neuralWeight : Qc;
  bigram : Qc;
  trigram : Qc;
  tetragram : Qc;
}.

Inductive MonteCarloStatus := idle | running | paused | completed | error.

Record MonteCarloState := {
  status : MonteCarloStatus;
  progress : Qc;
  message : jsstring;
  currentSimulation : nat;
  totalSimulations : nat;
  results : list SimulationResult;
  stats : option SimulationStats;
  params : option MonteCarloParams;
  error_text : option jsstring;
  shouldStop : bool;
}.

(** What [localStorage] holds under [STORAGE_KEY] and [RESULTS_KEY]. *)
Record SavedState := {
  saved_params : MonteCarloParams;
  saved_currentSimulation : nat;
  saved_totalSimulations : nat;
}.

Record Storage := {
  savedState : option SavedState;
  savedResults : option (list SimulationResult);
}.

(** The store with the storage and the polling manager it acts on. *)
Record Store := {
  state : MonteCarloState;
  storage : Storage;
  manager : PollingManager.Manager;
}.

(** A number in a template string. *)
Definition number_text (n : nat) : jsstring := lit (pretty n).

(** [set] with a partial state. *)
Definition set_state (f : MonteCarloState → MonteCarloState) (s : Store) : Store :=
  {| state := f (state s); storage := storage s; manager := manager s |}.

Definition stop_polling (s : Store) : Store :=
  {| state := state s; storage := storage s;
     manager := PollingManager.stop "montecarlo-main" (manager s) |}.

Definition initial (saved : Storage) (polling : PollingManager.Manager) : Store :=
  {| state := {| status := idle; progress := 0%Qc; message := [];
                 currentSimulation := 0; totalSimulations := 0; results := [];
                 stats := None; params := None; error_text := None;
                 shouldStop := false |};
     storage := saved;
     manager := polling |}.

Definition clear (s : Store) : Store :=
  let s := stop_polling s in
  {| state := {| status := idle; progress := 0%Qc; message := [];
                 currentSimulation := 0; totalSimulations := 0; results := [];
                 stats := None; params := None; error_text := None;
                 shouldStop := false |};
     storage := {| savedState := None; savedResults := None |};
     manager := manager s |}.

Definition pause (s : Store) : Store :=
  stop_polling (set_state (λ t,
    {| status := paused; progress := progress t; message := message t;
       currentSimulation := currentSimulation t;
       totalSimulations := totalSimulations t; results := results t;
       stats := stats t; params := params t; error_text := error_text t;
       shouldStop := true |}) s).

Definition stop (s : Store) : Store :=
  stop_polling (set_state (λ t,
    {| status := idle; progress := progress t;
       message := lit "Simulation stopped";
       currentSimulation := currentSimulation t;
       totalSimulations := totalSimulations t; results := results t;
       stats := stats t; params := params t; error_text := error_text t;
       shouldStop := true |}) s).

(** [set({ results: allResults, stats })] followed by the write of
    [RESULTS_KEY]: the body of [appendResults] and of the periodic
    update. *)
Definition publish (allResults : list SimulationResult) (s : Store) : option Store :=
  stats' ← calculateStats allResults;
  let s := set_state (λ t,
    {| status := status t; progress := progress t; message := message t;
       currentSimulation := currentSimulation t;
       totalSimulations := totalSimulations t; results := allResults;
       stats := stats'; params := params t; error_text := error_text t;
       shouldStop := shouldStop t |}) s in
  Some {| state := state s;
          storage := {| savedState := savedState (storage s);
                        savedResults := Some allResults |};
          manager := manager s |}.

Definition appendResults (newResults : list SimulationResult) (s : Store)
  : option Store :=
  publish (results (state s) ++ newResults) s.

(** The request of one simulation. *)
Definition simulation_request (p : MonteCarloParams)
  : option GenerationService.GenerationRequest :=
  let markovTotal := (bigram p + trigram p + tetragram p)%Qc in
  normalizedBigram ←
    (if decide (0 < markovTotal)%Qc then js_div (bigram p) markovTotal
     else Some (decimal 33 100));
  normalizedTrigram ←
    (if decide (0 < markovTotal)%Qc then js_div (trigram p) markovTotal
     else Some (decimal 33 100));
  normalizedTetragram ←
    (if decide (0 < markovTotal)%Qc then js_div (tetragram p) markovTotal
     else Some (decimal 34 100));
  neural ← js_div (neuralWeight p) (Qc_of_Z 100);
  Some {| GenerationService.prompt :=
            match prompt p with [] => None | _ :: _ => Some (prompt p) end;
          GenerationService.temperature := Some (temperature p);
          GenerationService.max_tokens := Some (charsPerGen p);
          GenerationService.top_p := None;
          GenerationService.model := None;
          GenerationService.neural_weight := Some neural;
          GenerationService.bigram_weight := Some normalizedBigram;
          GenerationService.trigram_weight := Some normalizedTrigram;
          GenerationService.tetragram_weight := Some normalizedTetragram |}.

(** The [SimulationResult] of a response. *)
Definition simulation_result (response : GenerationService.GenerationResponse)
  : option SimulationResult :=
  let words := words_of (GenerationService.generated_text response) in
  let validMask := default [] (GenerationService.valid_mask response) in
  let validCount := length (filter (λ v, v = true) validMask) in
  let totalForCalculation :=
    if decide (0 < length validMask)%nat then length validMask else length words in
  percentage ←
    (if decide (0 < totalForCalculation)%nat
     then r ← js_div (Qc_of_Z (Z.of_nat validCount))
                     (Qc_of_Z (Z.of_nat totalForCalculation));
          Some (r * Qc_of_Z 100)%Qc
     else Some 0%Qc);
  Some {| validPercentage := percentage;
          totalWords := totalForCalculation;
          validWords := validCount;
          text := GenerationService.generated_text response |}.

(** A call of [runSimulation] between its [await]s: it waits for the
    answer of [generateText], which has already been determined, or for
    the delay of 50 ms, or it has returned. *)
Inductive Phase :=
| AwaitingAnswer (outcome : JsError + GenerationService.GenerationResponse)
| AwaitingDelay
| Returned.

(** The local variables of a call of [runSimulation].  Writing to
    [localStorage] is taken to succeed, so that nothing is thrown
    outside the inner [try] and the outer [catch] is not entered. *)
Record Frame := {
  frame_params : MonteCarloParams;
  existingResults : list SimulationResult;
  simulationResults : list SimulationResult;
  index : nat;
  phase : Phase;
}.

(** The final update, after the loop. *)
Definition final_update (f : Frame) (s : Store) : option Store :=
  let allResults := existingResults f ++ simulationResults f in
  stats' ← calculateStats allResults;
  let stopped := shouldStop (state s) in
  let s := set_state (λ t,
    {| status := if stopped then paused else completed;
       progress := progress t;
       message :=
         if stopped
         then lit "Paused: " ++ number_text (length (simulationResults f))
              ++ lit " new runs completed"
         else lit "Simulation complete: "
              ++ number_text (length (simulationResults f))
              ++ lit " new runs added (" ++ number_text (length allResults)
              ++ lit " total)";
       currentSimulation := currentSimulation t;
       totalSimulations := totalSimulations t; results := allResults;
       stats := stats'; params := params t; error_text := error_text t;
       shouldStop := shouldStop t |}) s in
  Some {| state := state s;
          storage := {| savedState := if stopped then savedState (storage s) else None;
                        savedResults := Some allResults |};
          manager := manager s |}.

Section simulation.
Context {World : Type}.
Variable backend : GenerationService.ApiCall → World →
  (jsstring * Z + GenerationService.GenerationResponse) * World.

(** The store, the network and the calls of [runSimulation] that have
    been made, oldest first. *)
Record System := {
  store : Store;
  net : @GenerationService.Net World;
  frames : list Frame;
}.

(** The loop from the test [i < params.numSims] up to the next [await]
    or to the end of [runSimulation]. *)
Definition loop_head (f : Frame) (s : Store) (n : GenerationService.Net)
  : option (Frame * Store * GenerationService.Net) :=
  let p := frame_params f in
  let i := index f in
  if decide (i < numSims p)%nat
  then
    if shouldStop (state s)
    then
      let s := set_state (λ t,
        {| status := paused; progress := progress t;
           message := lit "Paused at simulation " ++ number_text i ++ lit " of "
                      ++ number_text (numSims p);
           currentSimulation := i;
           totalSimulations := totalSimulations t; results := results t;
           stats := stats t; params := params t; error_text := error_text t;
           shouldStop := shouldStop t |}) s in
      s ← final_update f s;
      Some ({| frame_params := p; existingResults := existingResults f;
               simulationResults := simulationResults f; index := i;
               phase := Returned |}, s, n)
    else
      ratio ← js_div (Qc_of_Z (Z.of_nat (i + 1))) (Qc_of_Z (Z.of_nat (numSims p)));
      let s := set_state (λ t,
        {| status := status t; progress := (ratio * Qc_of_Z 100)%Qc;
           message := lit "Running simulation " ++ number_text (i + 1) ++ lit " of "
                      ++ number_text (numSims p) ++ lit "...";
           currentSimulation := i + 1;
           totalSimulations := totalSimulations t; results := results t;
           stats := stats t; params := params t; error_text := error_text t;
           shouldStop := shouldStop t |}) s in
      request ← simulation_request p;
      let '(outcome, n) := GenerationService.generateText backend request n in
      Some ({| frame_params := p; existingResults := existingResults f;
               simulationResults := simulationResults f; index := i;
               phase := AwaitingAnswer outcome |}, s, n)
  else
    s ← final_update f s;
    Some ({| frame_params := p; existingResults := existingResults f;
             simulationResults := simulationResults f; index := i;
             phase := Returned |}, s, n).

(** [runSimulation] up to its first [await]. *)
Definition runSimulation (sys : System) : option System :=
  match params (state (store sys)) with
  | None => Some sys
  | Some p =>
      let f := {| frame_params := p;
                  existingResults := results (state (store sys));
                  simulationResults := [];
                  index := currentSimulation (state (store sys));
                  phase := Returned |} in
      '(f, s, n) ← loop_head f (store sys) (net sys);
      Some {| store := s; net := n; frames := frames sys ++ [f] |}
  end.

(** The call number [k] of [runSimulation] goes on after
    [await generateText]: the result is recorded and now and then
    published, a failed simulation is skipped. *)
Definition answered (k : nat) (sys : System) : option System :=
  match frames sys !! k with
  | Some f =>
      match phase f with
      | AwaitingAnswer (inr response) =>
          result ← simulation_result response;
          let simulationResults' := simulationResults f ++ [result] in
          s ← (if bool_decide (index f mod 10 = 0)%nat
                  || bool_decide (index f = numSims (frame_params f) - 1)%nat
               then publish (existingResults f ++ simulationResults') (store sys)
               else Some (store sys));
          Some {| store := s; net := net sys;
                  frames := <[k := {| frame_params := frame_params f;
                                      existingResults := existingResults f;
                                      simulationResults := simulationResults';
                                      index := index f;
                                      phase := AwaitingDelay |}]> (frames sys) |}
      | AwaitingAnswer (inl _) =>
          Some {| store := store sys; net := net sys;
                  frames := <[k := {| frame_params := frame_params f;
                                      existingResults := existingResults f;
                                      simulationResults := simulationResults f;
                                      index := index f;
                                      phase := AwaitingDelay |}]> (frames sys) |}
      | AwaitingDelay | Returned => Some sys
      end
  | None => Some sys
  end.

(** The call number [k] goes on after the delay: [i++] and the loop
    test. *)
Definition delayed (k : nat) (sys : System) : option System :=
  match frames sys !! k with
  | Some f =>
      match phase f with
      | AwaitingDelay =>
          let f := {| frame_params := frame_params f;
                      existingResults := existingResults f;
                      simulationResults := simulationResults f;
                      index := index f + 1;
                      phase := AwaitingDelay |} in
          '(f, s, n) ← loop_head f (store sys) (net sys);
          Some {| store := s; net := n; frames := <[k := f]> (frames sys) |}
      | AwaitingAnswer _ | Returned => Some sys
      end
  | None => Some sys
  end.

Definition with_store (f : Store → Store) (sys : System) : System :=
  {| store := f (store sys); net := net sys; frames := frames sys |}.

(** [resume]. *)
Definition resume (sys : System) : option System :=
  match params (state (store sys)) with
  | None => Some sys
  | Some p =>
      if decide (numSims p ≤ currentSimulation (state (store sys)))%nat
      then Some sys
      else
        runSimulation (with_store (set_state (λ t,
          {| status := running; progress := progress t;
             message := lit "Resuming simulation...";
             currentSimulation := currentSimulation t;
             totalSimulations := totalSimulations t; results := results t;
             stats := stats t; params := params t; error_text := error_text t;
             shouldStop := false |})) sys)
  end.

(** [start]. *)
Definition start (p : MonteCarloParams) (sys : System) : option System :=
  let sys := with_store stop_polling sys in
  let existing := results (state (store sys)) in
  let sys := with_store (set_state (λ t,
    {| status := running; progress := 0%Qc;
       message := lit "Starting simulation of " ++ number_text (numSims p)
                  ++ lit " runs...";
       currentSimulation := 0;
       totalSimulations := numSims p; results := existing;
       stats := stats t; params := Some p; error_text := None;
       shouldStop := false |})) sys in
  let sys := with_store (λ s,
    {| state := state s;
       storage := {| savedState := Some {| saved_params := p;
                                           saved_currentSimulation := 0;
                                           saved_totalSimulations := numSims p |};
                     savedResults := savedResults (storage s) |};
       manager := manager s |}) sys in
  runSimulation sys.

(** What can happen: the actions of the user and the continuations of
    the calls of [runSimulation]. *)
Inductive Event :=
| Start (p : MonteCarloParams)
| Pause
| Stop
| Clear
| Resume
| AppendResults (newResults : list SimulationResult)
| Answered (k : nat)
| Delayed (k : nat).

Definition step (sys : System) (e : Event) : option System :=
  match e with
  | Start p => start p sys
  | Pause => Some (with_store pause sys)
  | Stop => Some (with_store stop sys)
  | Clear => Some (with_store clear sys)
  | Resume => resume sys
  | AppendResults newResults =>
      s ← appendResults newResults (store sys);
      Some {| store := s; net := net sys; frames := frames sys |}
  | Answered k => answered k sys
  | Delayed k => delayed k sys
  end.

Definition run (sys : System) (events : list Event) : option System :=
  foldl (λ acc e, acc ≫= λ sys, step sys e) (Some sys) events.

End simulation.

(** The results of the simulations that were answered. *)
Definition results_of (answers : list (JsError + GenerationService.GenerationResponse))
  : list SimulationResult :=
  omap (λ outcome,
          match outcome with
          | inr response => simulation_result response
          | inl _ => None
          end) answers.





(** The restore that runs when the module is initialised over the
    storage [saved]. *)
Definition restore (saved : Storage) (s : Store) : option Store :=
  match savedState saved with
  | Some _ => appendResults (default [] (savedResults saved)) s
  | None => Some s
  end.

End MonteCarloStore.

(** ** pages/MonteCarlo.tsx *)

Module MonteCarloPage.

(** An entry of the histogram.  The key of a bin, the text [lo-hi], is
    kept as its lower bound [lo], from which the page renders it. *)
Record HistogramData := {
  bin : Z;
  count : nat;
  percentage : Qc;
}.

Definition binSize : Z := 4.

(** The values of [i] in [for (let i = 0; i <= 96; i += binSize)]. *)
Definition bin_bounds : list Z := map (λ k, Z.of_nat k * binSize) (seq 0 25).

Definition initializeEmptyHistogram : list HistogramData :=
  map (λ i, {| bin := i; count := 0; percentage := 0%Qc |}) bin_bounds.

(** [bins[binKey] !== undefined] and [bins[binKey]++] on the object
    [bins], whose entries are kept in insertion order. *)
Definition has_key (key : Z) (bins : list (Z * nat)) : bool :=
  bool_decide (key ∈ map fst bins).

Definition increment (key : Z) (bins : list (Z * nat)) : list (Z * nat) :=
  map (λ entry, if decide (entry.1 = key) then (entry.1, S entry.2) else entry) bins.

(** [Math.floor(result.validPercentage / binSize) * binSize]. *)
Definition binIndex (result : MonteCarloStore.SimulationResult) : Z :=
  Qfloor (MonteCarloStore.validPercentage result / Qc_of_Z binSize)%Qc * binSize.

(** [createHistogram]. *)
Definition createHistogram (data : list MonteCarloStore.SimulationResult)
  : option (list HistogramData) :=
  if bool_decide (length data = 0%nat) then Some initializeEmptyHistogram
  else
    let bins := map (λ i, (i, 0%nat)) bin_bounds in
    let bins :=
      foldl (λ bins result,
               if has_key (binIndex result) bins
               then increment (binIndex result) bins
               else bins) bins data in
    mapM (λ entry,
            ratio ← js_div (Qc_of_Z (Z.of_nat entry.2))
                           (Qc_of_Z (Z.of_nat (length data)));
            Some {| bin := entry.1; count := entry.2;
                    percentage := (ratio * Qc_of_Z 100)%Qc |}) bins.

End MonteCarloPage.

(** ** store/trainingStore.ts, on the polling manager *)

Module ManagedTrainingStore.

(** Job ids are kept as [string], the type of the keys of the polling
    manager. *)
Record TrainingState := {
  jobId : option string;
  progress : Qc;
  message : jsstring;
  status : jsstring;
  trainingText : jsstring;
  blockSize : Qc;
  epochs : Qc;
  stats : option TrainingService.TrainingStats;
  error_text : option jsstring;
}.

Record TrainingData := {
  data_text : jsstring;
  data_block_size : Qc;
  data_epochs : Qc;
}.

(** The store with what [localStorage] holds under [STORAGE_KEY] and
    [TRAINING_DATA_KEY] ([Some None] is a text that is no JSON), the
    polling manager, and the job ids of the calls of [checkStatus] that
    wait for their answer, oldest first. *)
Record Store := {
  state : TrainingState;
  savedJobId : option string;
  savedData : option (option TrainingData);
  manager : PollingManager.Manager;
  checking : list string;
}.

(** The answer of [GET /api/train/<job>], and what a call of
    [checkStatus] gets back. *)
Record ProgressData := {
  answer_progress : option Qc;
  answer_message : option jsstring;
  answer_status : option jsstring;
  answer_error : option jsstring;
}.

Inductive Fetched :=
| FetchThrew
| NotOk (http_status : Z)
| Json (data : ProgressData).

(** What the submission in [start] comes to: an exception with its
    message, or the id of the new job. *)
Inductive Submitted :=
| SubmitFailed (reason : jsstring)
| JobId (job_id : string).

(** [`training-${jobId}`]. *)
Definition training_key (j : string) : string := "training-" +:+ j.

(** A job id in a condition: [null] and the empty string are falsy. *)
Definition truthy_job (j : option string) : bool :=
  match j with
  | Some j => negb (bool_decide (j = EmptyString))
  | None => false
  end.

Definition initial (job : option string) (data : option (option TrainingData))
  : Store :=
  {| state := {| jobId := None; progress := 0%Qc; message := [];
                 status := lit "idle"; trainingText := [];
                 blockSize := Qc_of_Z 100000; epochs := Qc_of_Z 5;
                 stats := None; error_text := None |};
     savedJobId := job;
     savedData := data;
     manager := PollingManager.empty;
     checking := [] |}.

Definition set_state (f : TrainingState → TrainingState) (s : Store) : Store :=
  {| state := f (state s); savedJobId := savedJobId s; savedData := savedData s;
     manager := manager s; checking := checking s |}.

Definition with_manager (f : PollingManager.Manager → PollingManager.Manager)
    (s : Store) : Store :=
  {| state := state s; savedJobId := savedJobId s; savedData := savedData s;
     manager := f (manager s); checking := checking s |}.

(** [if (jobId) pollingManager.stop(`training-${jobId}`)]. *)
Definition stop_current (s : Store) : Store :=
  match jobId (state s) with
  | Some j =>
      if truthy_job (Some j)
      then with_manager (PollingManager.stop (training_key j)) s
      else s
  | None => s
  end.

Definition clear (s : Store) : Store :=
  let s := stop_current s in
  {| state := {| jobId := None; progress := 0%Qc; message := [];
                 status := lit "idle";
                 trainingText := trainingText (state s);
                 blockSize := blockSize (state s); epochs := epochs (state s);
                 stats := None; error_text := None |};
     savedJobId := None;
     savedData := None;
     manager := manager s;
     checking := checking s |}.

Definition stop (s : Store) : Store :=
  if truthy_job (jobId (state s))
  then set_state (λ t,
         {| jobId := jobId t; progress := progress t;
            message := lit "Training paused"; status := lit "paused";
            trainingText := trainingText t; blockSize := blockSize t;
            epochs := epochs t; stats := stats t; error_text := error_text t |})
         (stop_current s)
  else s.

(** [checkStatus] up to its [await fetch]. *)
Definition checkStatus_begin (s : Store) : Store :=
  match jobId (state s) with
  | Some j =>
      if truthy_job (Some j)
      then {| state := state s; savedJobId := savedJobId s;
              savedData := savedData s; manager := manager s;
              checking := checking s ++ [j] |}
      else s
  | None => s
  end.

Definition is_done (data : ProgressData) : bool :=
  bool_decide (answer_status data = Some (lit "success"))
  || bool_decide (answer_status data = Some (lit "error"))
  || match answer_progress data with
     | Some p => bool_decide (Qc_of_Z 100 ≤ p)%Qc
     | None => false
     end.

(** [x || d] on an optional string. *)
Definition or_text (x : option jsstring) (d : jsstring) : jsstring :=
  match x with
  | Some (c :: x) => c :: x
  | Some [] | None => d
  end.

(** [checkStatus] from its [await] on, for the job [j] it read before. *)
Definition checkStatus_answer (j : string) (f : Fetched) (s : Store) : Store :=
  match f with
  | FetchThrew => s
  | NotOk code =>
      if bool_decide (code = 404)
      then
        let s := set_state (λ t,
          {| jobId := jobId t; progress := progress t;
             message := lit "Job not found"; status := lit "error";
             trainingText := trainingText t; blockSize := blockSize t;
             epochs := epochs t; stats := stats t;
             error_text := Some (lit "Job not found") |}) s in
        let s := {| state := state s; savedJobId := None; savedData := savedData s;
                    manager := manager s; checking := checking s |} in
        with_manager (PollingManager.stop (training_key j)) s
      else s
  | Json data =>
      let isDone := is_done data in
      let s := set_state (λ t,
        {| jobId := jobId t;
           progress := match answer_progress data with
                       | Some p => if bool_decide (p = 0%Qc) then 0%Qc else p
                       | None => 0%Qc
                       end;
           message := or_text (answer_message data) [];
           status := or_text (answer_status data)
                       (if isDone then lit "success" else lit "running");
           trainingText := trainingText t; blockSize := blockSize t;
           epochs := epochs t; stats := stats t;
           error_text := match answer_error data with
                         | Some (c :: e) => Some (c :: e)
                         | Some [] | None => None
                         end |}) s in
      if isDone
      then
        let s := with_manager (PollingManager.stop (training_key j)) s in
        if bool_decide (answer_status data = Some (lit "success"))
        then {| state := state s; savedJobId := None; savedData := None;
                manager := manager s; checking := checking s |}
        else s
      else s
  end.

(** The answer for the call number [i] of those that wait. *)
Definition answer (i : nat) (f : Fetched) (s : Store) : Store :=
  match checking s !! i with
  | Some j =>
      checkStatus_answer j f
        {| state := state s; savedJobId := savedJobId s; savedData := savedData s;
           manager := manager s; checking := delete i (checking s) |}
  | None => s
  end.

(** The interval of handle [h] fires: the callback of the manager, and
    [checkStatus] when the job is active. *)
Definition fire (h : positive) (s : Store) : Store :=
  match PollingManager.timers (manager s) !! h with
  | Some key =>
      if PollingManager.isPolling key (manager s)
      then checkStatus_begin s
      else with_manager (PollingManager.stop key) s
  | None => s
  end.

(** [start]; the answer of the [POST] is taken at once. *)
Definition start (text : jsstring) (block_size epochs' : Qc) (r : Submitted)
    (s : Store) : Store :=
  let s := stop_current s in
  let s := set_state (λ t,
    {| jobId := jobId t; progress := 0%Qc;
       message := lit "Submitting job" ++ [8230%N]; status := lit "queued";
       trainingText := text; blockSize := block_size; epochs := epochs';
       stats := stats t; error_text := None |}) s in
  match r with
  | JobId j =>
      let s := {| state := state s; savedJobId := Some j;
                  savedData := Some (Some {| data_text := text;
                                             data_block_size := block_size;
                                             data_epochs := epochs' |});
                  manager := manager s; checking := checking s |} in
      let s := set_state (λ t,
        {| jobId := Some j; progress := 0%Qc;
           message := lit "Training started"; status := lit "running";
           trainingText := trainingText t; blockSize := blockSize t;
           epochs := epochs t; stats := stats t; error_text := error_text t |}) s in
      with_manager (PollingManager.start (training_key j)) s
  | SubmitFailed reason =>
      set_state (λ t,
        {| jobId := jobId t; progress := progress t;
           message := lit "Failed to start training"; status := lit "error";
           trainingText := trainingText t; blockSize := blockSize t;
           epochs := epochs t; stats := stats t; error_text := Some reason |}) s
  end.

Definition resume (s : Store) : Store :=
  match savedJobId s with
  | Some saved =>
      if truthy_job (Some saved)
         && negb (bool_decide (jobId (state s) = Some saved))
      then
        let trainingData :=
          match savedData s with
          | Some (Some d) => d
          | Some None | None =>
              {| data_text := []; data_block_size := Qc_of_Z 100000;
                 data_epochs := Qc_of_Z 5 |}
          end in
        let s := set_state (λ t,
          {| jobId := Some saved; progress := progress t; message := message t;
             status := lit "running";
             trainingText := data_text trainingData;
             blockSize := data_block_size trainingData;
             epochs := data_epochs trainingData;
             stats := stats t; error_text := error_text t |}) s in
        with_manager (PollingManager.start (training_key saved)) s
      else s
  | None => s
  end.

Inductive Event :=
| Start (text : jsstring) (block_size epochs : Qc) (r : Submitted)
| Stop
| Resume
| Clear
| CheckStatus
| Fire (h : positive)
| Answer (i : nat) (f : Fetched).

Definition step (s : Store) (e : Event) : Store :=
  match e with
  | Start text block_size epochs r => start text block_size epochs r s
  | Stop => stop s
  | Resume => resume s
  | Clear => clear s
  | CheckStatus => checkStatus_begin s
  | Fire h => fire h s
  | Answer i f => answer i f s
  end.




End ManagedTrainingStore.

(** ** pages/Generate.tsx: what [handleGenerate] shows *)

Module GenerateView.


Section handler.
Context {World : Type}.
Variable backend : GenerationService.ApiCall → World →
  (jsstring * Z + GenerationService.GenerationResponse) * World.

End handler.

End GenerateView.

(** ** Sample inputs *)

Module Samples.

(** A request that leaves every property undefined. *)
Definition no_params : GenerationService.GenerationRequest :=
  {| GenerationService.prompt := None;
     GenerationService.temperature := None;
     GenerationService.max_tokens := None;
     GenerationService.top_p := None;
     GenerationService.model := None;
     GenerationService.neural_weight := None;
     GenerationService.bigram_weight := None;
     GenerationService.trigram_weight := None;
     GenerationService.tetragram_weight := None |}.

Definition with_temperature (t : Qc) : GenerationService.GenerationRequest :=
  {| GenerationService.prompt := None;
     GenerationService.temperature := Some t;
     GenerationService.max_tokens := None;
     GenerationService.top_p := None;
     GenerationService.model := None;
     GenerationService.neural_weight := None;
     GenerationService.bigram_weight := None;
     GenerationService.trigram_weight := None;
     GenerationService.tetragram_weight := None |}.

(** A back end whose sampler draws from its own state: the world is the
    state of its random source, a generation answers with the letter the
    state selects and advances the state. *)
Definition sampling_backend (call : GenerationService.ApiCall) (rng : N)
  : (jsstring * Z + GenerationService.GenerationResponse) * N :=
  (inr {| GenerationService.generated_text := [(65 + rng mod 26)%N];
          GenerationService.valid_mask := Some [false] |},
   (rng + 1)%N).

(** A back end that is down. *)
Definition failing_backend (call : GenerationService.ApiCall) (w : unit)
  : (jsstring * Z + GenerationService.GenerationResponse) * unit :=
  (inl (lit "Network request failed", 0), w).



(** A store that follows the job [job-1], and two answers of the server. *)
Definition following : TrainingStore.Store :=
  TrainingStore.start (TrainingStore.JobId (lit "job-1")) (TrainingStore.initial None).

Definition report (p : Z) (st : string) : TrainingStore.ProgressData :=
  {| TrainingStore.data_progress := Some (Qc_of_Z p);
     TrainingStore.data_message := Some (lit "Training");
     TrainingStore.data_status := Some (lit st) |}.

(** Bigram counts with three observations after T: H twice, O once. *)
Definition bigram_counts : gmap (nat * jsstring * N) nat :=
  <[(2%nat, lit "T", 72%N) := 2%nat]> (<[(2%nat, lit "T", 79%N) := 1%nat]> ∅).

Definition fresh {World} (w : World) : GenerationService.Net :=
  {| GenerationService.world := w; GenerationService.sent := [] |}.

(** A training text of 120 characters, with the number of epochs left
    at zero. *)
Definition training_config : TrainingService.TrainingConfig :=
  {| TrainingService.text := flat_map (λ _, lit "THE CAT SAT ") (seq 0 10);
     TrainingService.block_size := Some (Qc_of_Z 50000);
     TrainingService.epochs := Some 0%Qc;
     TrainingService.save_after_blocks := None |}.

(** A server that accepts every submission as the job [job-1]. *)
Definition job_server (r : TrainingService.Request) (w : unit)
  : (jsstring * Z + TrainingService.TrainingJobResponse) * unit :=
  (inr {| TrainingService.job_id := lit "job-1" |}, w).

Definition finished : TrainingService.TrainingProgress :=
  {| TrainingService.progress := Qc_of_Z 100;
     TrainingService.message := lit "Training complete";
     TrainingService.status := TrainingService.success;
     TrainingService.error_detail := None |}.

(** The parameters of a Monte Carlo run of [n] simulations, and a
    freshly loaded store over the sampling back end. *)
Definition simulation_params (n : nat) : MonteCarloStore.MonteCarloParams :=
  {| MonteCarloStore.numSims := n;
     MonteCarloStore.charsPerGen := Qc_of_Z 250;
     MonteCarloStore.temperature := 1%Qc;
     MonteCarloStore.prompt := [];
     MonteCarloStore.neuralWeight := Qc_of_Z 80;
     MonteCarloStore.bigram := Qc_of_Z 20;
     MonteCarloStore.trigram := Qc_of_Z 30;
     MonteCarloStore.tetragram := Qc_of_Z 50 |}.

Definition idle_system : @MonteCarloStore.System N :=
  {| MonteCarloStore.store :=
       MonteCarloStore.initial
         {| MonteCarloStore.savedState := None;
            MonteCarloStore.savedResults := None |}
         PollingManager.empty;
     MonteCarloStore.net := fresh 0%N;
     MonteCarloStore.frames := [] |}.

End Samples.

(** * Properties *)

(** ** Numbers *)

Lemma js_div_Some (x y : Qc) : y ≠ 0%Qc → js_div x y = Some (x / y)%Qc.
Proof. intros Hy. unfold js_div. by destruct (decide (y = 0%Qc)). Qed.

Lemma Qc_of_nat_pos (n : nat) : (0 < n)%nat → (0 < Qc_of_Z (Z.of_nat n))%Qc.
Proof. intros Hn. rewrite <- Z2Qc_inj_0, <- Z2Qc_inj_lt. lia. Qed.

Lemma Qc_of_nat_nonzero (n : nat) : (0 < n)%nat → Qc_of_Z (Z.of_nat n) ≠ 0%Qc.
Proof.
  intros Hn Heq. apply Qc_of_nat_pos in Hn. rewrite Heq in Hn.
  by apply (irreflexivity Qclt 0%Qc).
Qed.



(** ** The generation service *)

Section generation_service.
Import GenerationService.

Lemma validate_temperature_negative (p : GenerationRequest) (t : Qc) :
  temperature p = Some t → (t < 0)%Qc →
  lit "Temperature must be between 0 and 2" ∈ validateGenerationParams p.
Proof.
  intros Ht Hneg. unfold validateGenerationParams. rewrite Ht.
  rewrite bool_decide_eq_true_2 by (by left).
  repeat case_match; rewrite ?elem_of_app, ?list_elem_of_singleton; tauto.
Qed.

Lemma in_range_iff (lo hi t : Qc) : ¬ (t < lo ∨ hi < t)%Qc ↔ (lo ≤ t ≤ hi)%Qc.
Proof. rewrite !Qcle_ngt. tauto. Qed.

(** A range clause of [validate_ok_iff] as a goal, for a property that
    is given and passed its check or for one that is undefined. *)
Local Ltac range_clause :=
  first [ intros ? [= <-]; apply (proj1 (in_range_iff _ _ _)); assumption
        | intros ? [=] ].

(** The same as a hypothesis, for a property that failed its check. *)
Local Ltac failed_check :=
  repeat match goal with
  | H : ∀ y, Some ?z = Some y → _ |- _ =>
      apply (λ G, proj2 (in_range_iff _ _ _) (G z eq_refl)) in H
  end; contradiction.

Lemma validate_ok_iff (p : GenerationRequest) :
  validateGenerationParams p = [] ↔
    (∀ t, temperature p = Some t → (0 ≤ t ≤ 2)%Qc) ∧
    (∀ m, max_tokens p = Some m → (1 ≤ m ≤ Qc_of_Z 10000)%Qc) ∧
    (∀ x, top_p p = Some x → (0 ≤ x ≤ 1)%Qc).
Proof.
  unfold validateGenerationParams.
  destruct (temperature p) as [t|], (max_tokens p) as [m|], (top_p p) as [x|];
    repeat case_bool_decide; simpl; split;
    try discriminate; try reflexivity;
    try (intros _; split; [|split]; range_clause);
    intros (Ht & Hm & Hx); failed_check.
Qed.

Lemma generateText_invalid {World}
    (backend : ApiCall → World → (jsstring * Z + GenerationResponse) * World)
    (p : GenerationRequest) (n : Net) :
  validateGenerationParams p ≠ [] →
  generateText backend p n
  = (inl (Error (join (lit ", ") (validateGenerationParams p))), n).
Proof.
  intros Herr. unfold generateText, try_catch.
  destruct (validateGenerationParams p) as [|e errors]; [done|].
  by rewrite bool_decide_eq_true_2 by (simpl; lia).
Qed.

(** C6: [generateText] validates first and, when validation reports
    errors, throws their joined text without issuing a request; otherwise
    it issues exactly one request and either returns the response of the
    back end or throws an [Error] made from the failure of the API, with
    no partial response.  Validation passes exactly when the temperature
    is in [0, 2], [max_tokens] in [1, 10000] and [top_p] in [0, 1], each
    when given. *)
Theorem generateText_returns_or_throws {World}
    (backend : ApiCall → World → (jsstring * Z + GenerationResponse) * World)
    (p : GenerationRequest) (n : Net) :
  generateText backend p n
  = match validateGenerationParams p with
    | [] =>
        let call := {| endpoint := "/api/generate"; body := request_body p |} in
        let n' := {| world := (backend call (world n)).2;
                     sent := sent n ++ [call] |} in
        match (backend call (world n)).1 with
        | inr response => (inr response, n')
        | inl (message, _) =>
            (inl (Error (lit "Generation failed: " ++ message)), n')
        end
    | e :: errors => (inl (Error (join (lit ", ") (e :: errors))), n)
    end
  ∧ (validateGenerationParams p = [] ↔
       (∀ t, temperature p = Some t → (0 ≤ t ≤ 2)%Qc) ∧
       (∀ m, max_tokens p = Some m → (1 ≤ m ≤ Qc_of_Z 10000)%Qc) ∧
       (∀ x, top_p p = Some x → (0 ≤ x ≤ 1)%Qc)).
Proof.
  split; [|apply validate_ok_iff].
  destruct (validateGenerationParams p) as [|e errors] eqn:Hv.
  - unfold generateText, try_catch, post. rewrite Hv. simpl.
    destruct (backend _ (world n)) as [[[message status]|response] w]; done.
  - rewrite <- Hv. apply generateText_invalid. by rewrite Hv.
Qed.

Example generateText_backend_down :
  generateText Samples.failing_backend Samples.no_params (Samples.fresh tt)
  = (inl (Error (lit "Generation failed: Network request failed")),
     {| world := tt;
        sent := [ {| endpoint := "/api/generate";
                     body := request_body Samples.no_params |} ] |}).
Proof. reflexivity. Qed.

(** C2, as the code has it: a negative temperature makes validation
    report the temperature message, and [generateText] then throws an
    [Error] carrying the joined messages while the network is left as it
    was, so no request is issued. *)
Theorem negative_temperature_rejected {World}
    (backend : ApiCall → World → (jsstring * Z + GenerationResponse) * World)
    (p : GenerationRequest) (t : Qc) (n : Net) :
  temperature p = Some t → (t < 0)%Qc →
  lit "Temperature must be between 0 and 2" ∈ validateGenerationParams p
  ∧ generateText backend p n
    = (inl (Error (join (lit ", ") (validateGenerationParams p))), n).
Proof.
  intros Ht Hneg.
  pose proof (validate_temperature_negative p t Ht Hneg) as Hin.
  split; [done|]. apply generateText_invalid. intros Hnil.
  rewrite Hnil in Hin. by apply not_elem_of_nil in Hin.
Qed.

Lemma negative_temperature_rejected_witness :
  let p := Samples.with_temperature (Qc_of_Z (-1)) in
  let n := Samples.fresh 0%N in
  lit "Temperature must be between 0 and 2" ∈ validateGenerationParams p
  ∧ generateText Samples.sampling_backend p n
    = (inl (Error (join (lit ", ") (validateGenerationParams p))), n).
Proof.
  apply (negative_temperature_rejected Samples.sampling_backend
           (Samples.with_temperature (Qc_of_Z (-1))) (Qc_of_Z (-1))).
  - reflexivity.
  - reflexivity.
Defined.

(** C2, the claim at temperature 0: validation reports nothing and the
    request is issued and answered. *)
Lemma temperature_zero_accepted :
  validateGenerationParams (Samples.with_temperature 0%Qc) = []
  ∧ (generateText Samples.sampling_backend (Samples.with_temperature 0%Qc)
       (Samples.fresh 0%N)).1
    = inr {| generated_text := [65%N]; valid_mask := Some [false] |}
  ∧ length (sent (generateText Samples.sampling_backend
                    (Samples.with_temperature 0%Qc) (Samples.fresh 0%N)).2) = 1%nat.
Proof. repeat split; vm_compute; reflexivity. Qed.

(** C3, as the code has it: the body posted for a generation has exactly
    the nine properties prompt, temperature, max_tokens, top_p, model and
    the four weights; no seed is part of the request. *)
Theorem request_carries_no_seed (p : GenerationRequest) :
  dom (request_body p)
  = {[ "prompt"; "temperature"; "max_tokens"; "top_p"; "model";
       "neural_weight"; "bigram_weight"; "trigram_weight";
       "tetragram_weight" ]}
  ∧ request_body p !! "seed" = None.
Proof.
  split.
  - unfold request_body. rewrite !dom_insert_L, dom_empty_L.
    by rewrite !(assoc_L (∪)), (right_id_L ∅ (∪)).
  - reflexivity.
Qed.

(** C3, the claim on a back end that samples from its own state: the
    request has no seed, and two calls with the same parameters post the
    same body and get different texts. *)
Lemma same_request_different_text :
  let first := generateText Samples.sampling_backend Samples.no_params
                 (Samples.fresh 0%N) in
  let second := generateText Samples.sampling_backend Samples.no_params first.2 in
  request_body Samples.no_params !! "seed" = None
  ∧ first.1 = inr {| generated_text := [65%N]; valid_mask := Some [false] |}
  ∧ second.1 = inr {| generated_text := [66%N]; valid_mask := Some [false] |}
  ∧ sent second.2
    = [ {| endpoint := "/api/generate"; body := request_body Samples.no_params |};
        {| endpoint := "/api/generate"; body := request_body Samples.no_params |} ].
Proof. repeat split; vm_compute; reflexivity. Qed.

Lemma quality_ratio_bounds (validMask : list bool) :
  (0 < length validMask)%nat →
  let x := (Qc_of_Z (Z.of_nat (length (filter (λ v, v = true) validMask)))
            / Qc_of_Z (Z.of_nat (length validMask)) * Qc_of_Z 100)%Qc in
  (0 ≤ x ≤ Qc_of_Z 100)%Qc.
Proof.
  intros Hlen x.
  pose proof (length_filter (λ v, v = true) validMask) as Hle.
  pose proof (Qc_of_nat_pos _ Hlen) as Hpos.
  set (c := length (filter (λ v, v = true) validMask)) in *.
  set (n := length validMask) in *.
  assert (0 ≤ Qc_of_Z (Z.of_nat c) / Qc_of_Z (Z.of_nat n) ≤ 1)%Qc as [H0 H1].
  { split.
    - apply Qcmult_nonneg_nonneg.
      + rewrite <- Z2Qc_inj_0, <- Z2Qc_inj_le. lia.
      + apply Qclt_le_weak, Qcinv_pos. done.
    - apply (Qcmult_le_mono_pos_r _ _ (Qc_of_Z (Z.of_nat n))); [done|].
      replace (Qc_of_Z (Z.of_nat c) / Qc_of_Z (Z.of_nat n) * Qc_of_Z (Z.of_nat n))%Qc
        with (Qc_of_Z (Z.of_nat c))
        by (field; by apply Qc_of_nat_nonzero).
      rewrite Qcmult_1_l, <- Z2Qc_inj_le. lia. }
  subst x. split.
  - apply Qcmult_nonneg_nonneg; [done|]. by rewrite <- Z2Qc_inj_0, <- Z2Qc_inj_le.
  - rewrite <- (Qcmult_1_l (Qc_of_Z 100)) at 2.
    apply Qcmult_le_mono_nonneg_r; [|done].
    by rewrite <- Z2Qc_inj_0, <- Z2Qc_inj_le.
Qed.


End generation_service.

(** ** Markov weights *)

Section markov_weights.







End markov_weights.

(** ** The generation store *)

Section generation_store.
Import GenerationStore.








Section generate.
Context {World : Type}.
Variable backend : GenerationService.ApiCall → World →
  (jsstring * Z + GenerationService.GenerationResponse) * World.



End generate.
End generation_store.

(** ** The text normalizer *)

Section text_normalizer.
Import TrainingService.

Lemma in_A_Z_space_alphabet (c : N) :
  in_A_Z_space c = true → c ∈ NGram.alphabet.
Proof.
  unfold in_A_Z_space, NGram.alphabet. intros Hc.
  apply orb_true_iff in Hc as [Hc|Hc].
  - apply andb_true_iff in Hc as [Hlo Hhi].
    apply N.leb_le in Hlo, Hhi.
    apply elem_of_app. left.
    apply list_elem_of_fmap. exists (N.to_nat c). split; [lia|].
    apply elem_of_seq. lia.
  - apply N.eqb_eq in Hc as ->. apply elem_of_app. right. by apply list_elem_of_singleton.
Qed.

Lemma alphabet_in_A_Z_space (c : N) :
  c ∈ NGram.alphabet → in_A_Z_space c = true.
Proof.
  unfold NGram.alphabet. intros Hc. apply elem_of_app in Hc as [Hc|Hc].
  - apply list_elem_of_fmap in Hc as (n & -> & Hn). apply elem_of_seq in Hn.
    unfold in_A_Z_space. apply orb_true_iff. left.
    apply andb_true_iff. split; apply N.leb_le; lia.
  - by apply list_elem_of_singleton in Hc as ->.
Qed.

Lemma cleanText_cons (upper : N → list N) (c : N) (text : jsstring) :
  cleanText upper (c :: text)
  = filter (λ c, in_A_Z_space c = true) (upper c) ++ cleanText upper text.
Proof. unfold cleanText, toUpperCase. simpl. by rewrite filter_app. Qed.

(** C7: whatever the text, every code point of the cleaned text is one
    of the 27 symbols of the alphabet; and since upper-casing leaves the
    symbols of the alphabet as they are, those of the text are kept, in
    their order, and a text over the alphabet is unchanged. *)
Theorem cleanText_alphabet (upper : N → list N) (text : jsstring) :
  (∀ c, c ∈ NGram.alphabet → upper c = [c]) →
  length NGram.alphabet = 27%nat
  ∧ Forall (λ c, c ∈ NGram.alphabet) (cleanText upper text)
  ∧ filter (λ c, c ∈ NGram.alphabet) text `sublist_of` cleanText upper text
  ∧ (Forall (λ c, c ∈ NGram.alphabet) text → cleanText upper text = text).
Proof.
  intros Hupper. split; [done|]. split; [|split].
  - unfold cleanText. apply Forall_forall. intros c Hc.
    apply list_elem_of_filter in Hc as [Hc _]. by apply in_A_Z_space_alphabet.
  - induction text as [|c text IH]; [done|].
    rewrite cleanText_cons, filter_cons.
    destruct (decide (c ∈ NGram.alphabet)) as [Hc|Hc].
    + rewrite (Hupper c Hc), filter_cons.
      rewrite decide_True by (by apply alphabet_in_A_Z_space).
      simpl. by apply sublist_skip.
    + by apply sublist_inserts_l.
  - induction 1 as [|c text Hc Htext IH]; [done|].
    rewrite cleanText_cons, (Hupper c Hc), filter_cons.
    rewrite decide_True by (by apply alphabet_in_A_Z_space).
    simpl. by rewrite IH.
Qed.

Lemma latin_upper_alphabet (c : N) : c ∈ NGram.alphabet → latin_upper c = [c].
Proof.
  intros Hc. apply alphabet_in_A_Z_space in Hc.
  unfold in_A_Z_space in Hc. unfold latin_upper.
  apply orb_true_iff in Hc as [Hc|Hc].
  - apply andb_true_iff in Hc as [Hlo Hhi]. apply N.leb_le in Hlo, Hhi.
    rewrite (proj2 (andb_false_iff _ _)) by (left; apply N.leb_gt; lia).
    by rewrite (proj2 (N.eqb_neq _ _)) by lia.
  - by apply N.eqb_eq in Hc as ->.
Qed.

Lemma cleanText_alphabet_witness :
  let text := lit "The  quick, brown fox!" in
  length NGram.alphabet = 27%nat
  ∧ Forall (λ c, c ∈ NGram.alphabet) (cleanText latin_upper text)
  ∧ filter (λ c, c ∈ NGram.alphabet) text `sublist_of` cleanText latin_upper text
  ∧ (Forall (λ c, c ∈ NGram.alphabet) text → cleanText latin_upper text = text).
Proof.
  apply (cleanText_alphabet latin_upper (lit "The  quick, brown fox!")).
  exact latin_upper_alphabet.
Defined.

Example cleanText_sample :
  cleanText latin_upper (lit "The  quick, brown fox!") = lit "THE  QUICK BROWN FOX".
Proof. reflexivity. Qed.

Example cleanText_sharp_s :
  cleanText latin_upper [115; 116; 114; 97; 223; 101]%N = lit "STRASSE".
Proof. reflexivity. Qed.

End text_normalizer.

(** ** The polling manager *)

Section polling_manager.
Import PollingManager.

Lemma stop_intervals (j : string) (m : Manager) :
  intervals (stop j m) = delete j (intervals m).
Proof.
  unfold stop. destruct (intervals m !! j) eqn:E; simpl; [done|].
  by rewrite delete_id.
Qed.

Lemma stop_active (j : string) (m : Manager) :
  active (stop j m) = active m ∖ {[j]}.
Proof. unfold stop. by destruct (intervals m !! j). Qed.

Lemma stop_timers (j : string) (m : Manager) :
  timers (stop j m)
  = match intervals m !! j with
    | Some h => delete h (timers m)
    | None => timers m
    end.
Proof. unfold stop. by destruct (intervals m !! j). Qed.

Lemma stop_next_handle (j : string) (m : Manager) :
  next_handle (stop j m) = next_handle m.
Proof. unfold stop. by destruct (intervals m !! j). Qed.

Lemma consistent_empty : consistent empty.
Proof.
  split; [|split]; simpl.
  - by rewrite dom_empty_L.
  - intros j h. by rewrite !lookup_empty.
  - intros h j. by rewrite lookup_empty.
Qed.

Lemma consistent_stop (j : string) (m : Manager) :
  consistent m → consistent (stop j m).
Proof.
  intros (Hdom & Hbij & Hfresh). split; [|split].
  - by rewrite stop_intervals, stop_active, dom_delete_L, Hdom.
  - intros j' h'. rewrite stop_intervals, stop_timers.
    rewrite lookup_delete_Some.
    destruct (intervals m !! j) as [h|] eqn:Ej.
    + rewrite lookup_delete_Some, <- Hbij. split.
      * intros [Hne Hj']. split; [|done]. intros ->.
        apply Hbij in Ej, Hj'. congruence.
      * intros [Hne Hj']. split; [|done]. intros ->. congruence.
    + rewrite <- Hbij. split; [tauto|]. intros Hj'. split; [|done].
      intros ->. congruence.
  - intros h' j'. rewrite stop_timers, stop_next_handle.
    destruct (intervals m !! j) as [h|].
    + rewrite lookup_delete_Some. intros [_ Hh']. by eapply Hfresh.
    + apply Hfresh.
Qed.

Lemma stop_lookup_self (j : string) (m : Manager) :
  intervals (stop j m) !! j = None.
Proof. rewrite stop_intervals. apply lookup_delete_eq. Qed.

Lemma fresh_handle_free (m : Manager) :
  consistent m → timers m !! next_handle m = None.
Proof.
  intros (_ & _ & Hfresh).
  destruct (timers m !! next_handle m) as [j|] eqn:E; [|done].
  apply Hfresh in E. lia.
Qed.

Lemma consistent_start (j : string) (m : Manager) :
  consistent m → consistent (start j m).
Proof.
  intros Hm. apply (consistent_stop j) in Hm.
  pose proof (stop_lookup_self j m) as Hnone.
  pose proof (fresh_handle_free _ Hm) as Hfree.
  destruct Hm as (Hdom & Hbij & Hfresh).
  unfold start. set (m1 := stop j m) in *. clearbody m1.
  split; [|split]; simpl.
  - rewrite dom_insert_L, Hdom. apply (comm_L (∪)).
  - intros j' h'. rewrite !lookup_insert_Some, <- Hbij. split.
    + intros [[-> ->]|[Hne Hj']]; [by left|]. right. split; [|done].
      intros <-. apply Hbij in Hj'. congruence.
    + intros [[-> ->]|[Hne Hj']]; [by left|]. right. split; [|done].
      intros <-. congruence.
  - intros h' j'. rewrite lookup_insert_Some.
    intros [[<- _]|[_ Hh']]; [lia|]. apply Hfresh in Hh'. lia.
Qed.

Lemma consistent_fire (h : positive) (m : Manager) :
  consistent m → consistent (fire h m).
Proof.
  intros Hm. unfold fire. destruct (timers m !! h) as [j|]; [|done].
  destruct (isPolling j m); [done|]. by apply consistent_stop.
Qed.

Lemma consistent_stop_list (l : list string) (m : Manager) :
  consistent m → consistent (foldl (λ m j, stop j m) m l).
Proof.
  revert m. induction l as [|j l IH]; intros m Hm; [done|].
  simpl. by apply IH, consistent_stop.
Qed.

Lemma stop_list_intervals (l : list string) (m : Manager) (j : string) :
  intervals (foldl (λ m j, stop j m) m l) !! j
  = if decide (j ∈ l) then None else intervals m !! j.
Proof.
  revert m. induction l as [|j' l IH]; intros m; [done|].
  simpl. rewrite IH, stop_intervals.
  destruct (decide (j = j')) as [->|Hne].
  - rewrite lookup_delete_eq.
    rewrite (decide_True (P := j' ∈ j' :: l)) by apply list_elem_of_here.
    by destruct (decide (j' ∈ l)).
  - rewrite lookup_delete_ne by done.
    destruct (decide (j ∈ l)) as [Hin|Hnot].
    + by rewrite decide_True by (by apply list_elem_of_further).
    + rewrite decide_False; [done|].
      intros [?|?]%elem_of_cons; done.
Qed.

Lemma stopAll_intervals (m : Manager) : intervals (stopAll m) = ∅.
Proof.
  apply map_eq. intros j. unfold stopAll.
  rewrite stop_list_intervals, lookup_empty.
  destruct (decide (j ∈ map fst (map_to_list (intervals m)))) as [|Hnot]; [done|].
  destruct (intervals m !! j) as [h|] eqn:E; [|done].
  exfalso. apply Hnot. apply list_elem_of_fmap. exists (j, h).
  split; [done|]. by apply elem_of_map_to_list.
Qed.

Lemma consistent_stopAll (m : Manager) : consistent m → consistent (stopAll m).
Proof. apply consistent_stop_list. Qed.

Lemma consistent_apply_op (m : Manager) (o : Op) :
  consistent m → consistent (apply_op m o).
Proof.
  destruct o; simpl;
    auto using consistent_start, consistent_stop, consistent_stopAll,
               consistent_fire.
Qed.

Lemma consistent_foldl (ops : list Op) (m : Manager) :
  consistent m → consistent (foldl apply_op m ops).
Proof.
  revert m. induction ops as [|o ops IH]; intros m Hm; [done|].
  simpl. by apply IH, consistent_apply_op.
Qed.

Lemma consistent_run (ops : list Op) : consistent (run ops).
Proof. apply consistent_foldl, consistent_empty. Qed.

Lemma timers_of_job (m : Manager) (j : string) (h : positive) :
  consistent m → intervals m !! j = Some h →
  ∀ h', timers m !! h' = Some j ↔ h' = h.
Proof.
  intros (_ & Hbij & _) Hj h'. rewrite <- Hbij. split; [congruence|by intros ->].
Qed.

Lemma no_timer_of_job (m : Manager) (j : string) :
  consistent m → intervals m !! j = None → ∀ h, timers m !! h ≠ Some j.
Proof. intros (_ & Hbij & _) Hj h Hh. apply Hbij in Hh. congruence. Qed.

Lemma isPolling_registered (m : Manager) (j : string) :
  consistent m → isPolling j m = true ↔ is_Some (intervals m !! j).
Proof.
  intros (Hdom & _ & _). unfold isPolling.
  by rewrite bool_decide_eq_true, <- Hdom, elem_of_dom.
Qed.

Lemma isPolling_start (j j' : string) (m : Manager) :
  isPolling j (start j' m) = if decide (j' = j) then true else isPolling j m.
Proof.
  unfold isPolling, start. cbn [active]. rewrite stop_active.
  destruct (decide (j' = j)) as [->|Hne].
  - apply bool_decide_eq_true, elem_of_union. right. by apply elem_of_singleton.
  - apply bool_decide_ext.
    rewrite elem_of_union, elem_of_difference, elem_of_singleton.
    intuition congruence.
Qed.

Lemma isPolling_stop (j j' : string) (m : Manager) :
  isPolling j (stop j' m) = if decide (j' = j) then false else isPolling j m.
Proof.
  unfold isPolling. rewrite stop_active.
  destruct (decide (j' = j)) as [->|Hne].
  - apply bool_decide_eq_false. rewrite elem_of_difference, elem_of_singleton.
    tauto.
  - apply bool_decide_ext. rewrite elem_of_difference, elem_of_singleton.
    intuition congruence.
Qed.

Lemma isPolling_stopAll (j : string) (m : Manager) :
  consistent m → isPolling j (stopAll m) = false.
Proof.
  intros Hm. apply consistent_stopAll in Hm.
  apply not_true_is_false. rewrite (isPolling_registered _ _ Hm).
  rewrite stopAll_intervals, lookup_empty. by intros [? ?].
Qed.

Lemma isPolling_fire (j : string) (h : positive) (m : Manager) :
  isPolling j (fire h m) = isPolling j m.
Proof.
  unfold fire. destruct (timers m !! h) as [j'|]; [|done].
  destruct (isPolling j' m) eqn:E; [done|].
  rewrite isPolling_stop. destruct (decide (j' = j)) as [<-|]; done.
Qed.

Lemma isPolling_track (j : string) (ops : list Op) (m : Manager) :
  consistent m →
  isPolling j (foldl apply_op m ops) = foldl (track j) (isPolling j m) ops.
Proof.
  revert m. induction ops as [|o ops IH]; intros m Hm; [done|].
  simpl. rewrite IH by (by apply consistent_apply_op). f_equal.
  destruct o; simpl.
  - apply isPolling_start.
  - apply isPolling_stop.
  - by apply isPolling_stopAll.
  - apply isPolling_fire.
Qed.

(** C8: in every state the manager can reach, a job has at most one live
    interval, it is reported as polling exactly when it has one, and that
    is exactly when its last [start] has not been followed by a [stop] of
    it or a [stopAll].  A [start] clears the interval the job had and
    leaves the job with exactly one; after a [stop] the job has none and
    is not polling; after [stopAll] nothing is live or registered. *)
Theorem polling_singleton (ops : list Op) (jobId : string) :
  let m := run ops in
  (∀ h1 h2, timers m !! h1 = Some jobId → timers m !! h2 = Some jobId → h1 = h2)
  ∧ (isPolling jobId m = true ↔ ∃ h, timers m !! h = Some jobId)
  ∧ isPolling jobId m = started jobId ops
  ∧ (∀ h, intervals m !! jobId = Some h → timers (start jobId m) !! h = None)
  ∧ (∃ h, ∀ h', timers (start jobId m) !! h' = Some jobId ↔ h' = h)
  ∧ isPolling jobId (start jobId m) = true
  ∧ (∀ h, timers (stop jobId m) !! h ≠ Some jobId)
  ∧ intervals (stop jobId m) !! jobId = None
  ∧ isPolling jobId (stop jobId m) = false
  ∧ timers (stopAll m) = ∅
  ∧ intervals (stopAll m) = ∅
  ∧ active (stopAll m) = ∅.
Proof.
  intros m. pose proof (consistent_run ops) as Hm. fold m in Hm.
  pose proof Hm as (Hdom & Hbij & Hfresh).
  repeat match goal with |- _ ∧ _ => split end.
  - intros h1 h2 H1 H2. apply Hbij in H1, H2. congruence.
  - rewrite (isPolling_registered _ _ Hm). split.
    + intros [h Hh]. exists h. by apply (proj1 (Hbij _ _)).
    + intros [h Hh]. exists h. by apply (proj2 (Hbij _ _)).
  - unfold m, run, started. by rewrite isPolling_track by apply consistent_empty.
  - intros h Hh. pose proof (consistent_stop jobId m Hm) as Hm1.
    unfold start. cbn [timers]. rewrite lookup_insert_ne.
    + rewrite stop_timers, Hh. apply lookup_delete_eq.
    + rewrite stop_next_handle. apply (proj1 (Hbij _ _)) in Hh.
      apply Hfresh in Hh. lia.
  - exists (next_handle (stop jobId m)).
    apply (timers_of_job _ _ _ (consistent_start jobId m Hm)).
    unfold start. cbn [intervals]. apply lookup_insert_eq.
  - rewrite isPolling_start. by rewrite decide_True.
  - apply no_timer_of_job; [by apply consistent_stop|apply stop_lookup_self].
  - apply stop_lookup_self.
  - rewrite isPolling_stop. by rewrite decide_True.
  - apply map_eq. intros h. rewrite lookup_empty.
    destruct (timers (stopAll m) !! h) as [j|] eqn:E; [|done].
    destruct (consistent_stopAll m Hm) as (_ & Hbij' & _).
    apply (proj2 (Hbij' _ _)) in E.
    by rewrite stopAll_intervals, lookup_empty in E.
  - apply stopAll_intervals.
  - destruct (consistent_stopAll m Hm) as (Hdom' & _ & _).
    by rewrite <- Hdom', stopAll_intervals, dom_empty_L.
Qed.

Example polling_restart :
  let m := run [Start "job-1"; Start "job-2"; Start "job-1"] in
  timers m !! 1%positive = None
  ∧ timers m !! 2%positive = Some "job-2"
  ∧ timers m !! 3%positive = Some "job-1"
  ∧ size (timers m) = 2%nat
  ∧ getActiveJobs (stop "job-1" m) = ["job-2"]
  ∧ getActiveJobs (stopAll m) = [].
Proof. repeat split; vm_compute; reflexivity. Qed.

End polling_manager.

(** ** The training store *)

Section training_store.
Import TrainingStore.

Lemma status_name_listed (st : TrainingService.ProgressStatus) :
  TrainingService.status_name st ∈ TrainingService.job_statuses.
Proof.
  destruct st; unfold TrainingService.job_statuses;
    repeat (first [apply list_elem_of_here | apply list_elem_of_further]).
Qed.

Lemma at_rest_apply_event (s : Store) (e : Event) :
  at_rest s → apply_event s e = s.
Proof.
  destruct s as [t timer item k]. intros (Htimer & Hitem & Hk).
  simpl in *. subst timer item k. by destruct e.
Qed.

Lemma at_rest_foldl (s : Store) (events : list Event) :
  at_rest s → foldl apply_event s events = s.
Proof.
  intros Hs. induction events as [|e events IH]; [done|].
  simpl. by rewrite at_rest_apply_event.
Qed.

(** A poll whose answer arrives before the next tick: when the answer
    reports success or error, the store takes that status and comes to
    rest, so that later ticks, answers and resumes leave it as it is. *)
Lemma sequential_poll_absorbs (s : Store) (data : ProgressData)
    (st : jsstring) (events : list Event) :
  awaiting s = 1%nat →
  data_status data = Some st → is_terminal st = true →
  let s' := answer (Json data) s in
  status (state s') = st
  ∧ pollTimer s' = false
  ∧ foldl apply_event s' events = s'.
Proof.
  intros Hone Hst Hterm s'.
  assert (status (state s') = st ∧ at_rest s') as [Hs' Hrest].
  { unfold s', answer, poll_answer. rewrite Hone, Hst, Hterm.
    unfold at_rest, removeItem, stopPolling, set_state.
    cbn [orb state status pollTimer saved awaiting default]. done. }
  split; [done|]. split; [apply Hrest|by apply at_rest_foldl].
Qed.

Lemma not_found_absorbs (s : Store) (events : list Event) :
  awaiting s = 1%nat →
  let s' := answer (NotOk 404) s in
  status (state s') = lit "error"
  ∧ pollTimer s' = false
  ∧ foldl apply_event s' events = s'.
Proof.
  intros Hone s'.
  assert (at_rest s') as Hrest by (unfold s', answer; by rewrite Hone).
  split; [by unfold s', answer; rewrite Hone|].
  split; [apply Hrest|by apply at_rest_foldl].
Qed.

(** A tick on a store whose status is terminal clears the timer and
    sends nothing. *)
Lemma tick_after_terminal (s : Store) :
  is_terminal (status (state s)) = true →
  pollTimer (tick s) = false ∧ awaiting (tick s) = awaiting s
  ∧ state (tick s) = state s.
Proof.
  intros Hterm. unfold tick, poll_begin. rewrite Hterm, orb_true_r.
  by destruct (pollTimer s) eqn:E.
Qed.

(** C5: the callback does not look at the status again after its
    [await].  When the timer fires twice before the first answer, the
    answer that reports success ends the polling, and the answer of the
    other request, sent while the job was running, puts the status back
    to running; the store is then at rest and stays as it is. *)
Theorem stale_answer_reverts_terminal_status :
  let s1 := foldl apply_event Samples.following [Tick; Tick] in
  let s2 := apply_event s1 (Answer (Json (Samples.report 100 "success"))) in
  let s3 := apply_event s2 (Answer (Json (Samples.report 90 "running"))) in
  awaiting s1 = 2%nat
  ∧ status (state s2) = lit "success" ∧ pollTimer s2 = false
  ∧ status (state s3) = lit "running" ∧ pollTimer s3 = false
  ∧ progress (state s3) = Qc_of_Z 90
  ∧ ∀ events, foldl apply_event s3 events = s3.
Proof.
  intros s1 s2 s3.
  repeat match goal with |- _ ∧ _ => split end; try reflexivity.
  intros events. apply at_rest_foldl. by repeat split.
Qed.

Example following_polls :
  let s := answer (Json (Samples.report 40 "queued")) (tick Samples.following) in
  status (state s) = lit "running" ∧ pollTimer s = true ∧ awaiting s = 0%nat.
Proof. repeat split; reflexivity. Qed.

End training_store.

(** ** The n-gram model *)

Section ngram.
Import NGram.

Lemma total_mass_div (f : N → Qc) (T : Qc) (l : list N) :
  total_mass (map (λ s, f s / T)%Qc l) = (total_mass (map f l) / T)%Qc.
Proof.
  induction l as [|s l IH]; simpl.
  - unfold Qcdiv. ring.
  - rewrite IH. unfold Qcdiv. ring.
Qed.

Lemma total_mass_counts (g : N → nat) (l : list N) :
  total_mass (map (λ s, Qc_of_Z (Z.of_nat (g s))) l)
  = Qc_of_Z (Z.of_nat (sum_list (map g l))).
Proof.
  unfold total_mass. induction l as [|s l IH]; cbn [map foldr sum_list].
  - by rewrite <- Z2Qc_inj_0.
  - by rewrite IH, Nat2Z.inj_add, Z2Qc_inj_add.
Qed.

Lemma total_mass_const (c : Qc) (l : list N) :
  total_mass (map (λ _, c) l) = (Qc_of_Z (Z.of_nat (length l)) * c)%Qc.
Proof.
  unfold total_mass. induction l as [|s l IH]; cbn [map foldr length].
  - change (Z.of_nat 0) with 0. rewrite Z2Qc_inj_0. ring.
  - rewrite IH, Nat2Z.inj_succ, <- Z.add_1_r, Z2Qc_inj_add, Z2Qc_inj_1. ring.
Qed.

Lemma map_fst_pairing {B} (f : N → B) (l : list N) :
  map fst (map (λ s, (s, f s)) l) = l.
Proof. induction l as [|s l IH]; simpl; [done|by rewrite IH]. Qed.

Lemma map_snd_pairing {B} (f : N → B) (l : list N) :
  map snd (map (λ s, (s, f s)) l) = map f l.
Proof. induction l as [|s l IH]; simpl; [done|by rewrite IH]. Qed.

(** C4: for an order among 2, 3, 4 and any context, [probabilities]
    returns one probability for each of the 27 symbols of the alphabet,
    in the order of the alphabet; the probabilities add up to 1; they are
    the counts of the context over their sum when the context has been
    observed, and 1/27 each when it has not. *)
Theorem probabilities_normalized (m : gmap (nat * jsstring * N) nat)
    (order : nat) (context : jsstring) :
  order ∈ [2%nat; 3%nat; 4%nat] →
  ∃ d, probabilities m order context = inr d
    ∧ map fst d = alphabet
    ∧ length alphabet = 27%nat
    ∧ NoDup alphabet
    ∧ total_mass (map snd d) = 1%Qc
    ∧ ((0 < observations m order context)%nat →
       d = map (λ s, (s, (Qc_of_Z (Z.of_nat (count m order context s))
                          / Qc_of_Z (Z.of_nat (observations m order context)))%Qc))
               alphabet)
    ∧ (observations m order context = 0%nat →
       d = map (λ s, (s, decimal 1 27)) alphabet).
Proof.
  intros Horder. unfold probabilities, valid_order.
  rewrite bool_decide_eq_true_2 by done.
  eexists. split; [reflexivity|].
  split; [apply map_fst_pairing|]. split; [done|].
  split; [apply (bool_decide_unpack _); by vm_compute|].
  rewrite map_snd_pairing.
  destruct (decide (observations m order context = 0%nat)) as [Hzero|Hpos].
  - split; [|split].
    + rewrite total_mass_const. by apply Qc_is_canon.
    + lia.
    + intros _. apply map_ext. intros s. f_equal; by apply Qc_is_canon.
  - split; [|split].
    + rewrite (total_mass_div (λ s, Qc_of_Z (Z.of_nat (count m order context s)))).
      rewrite total_mass_counts. fold (observations m order context).
      field. apply Qc_of_nat_nonzero. lia.
    + done.
    + done.
Qed.

Lemma probabilities_normalized_witness :
  ∃ d, probabilities Samples.bigram_counts 2 (lit "T") = inr d
    ∧ map fst d = alphabet
    ∧ length alphabet = 27%nat
    ∧ NoDup alphabet
    ∧ total_mass (map snd d) = 1%Qc
    ∧ ((0 < observations Samples.bigram_counts 2 (lit "T"))%nat →
       d = map (λ s, (s, (Qc_of_Z (Z.of_nat (count Samples.bigram_counts 2 (lit "T") s))
                          / Qc_of_Z (Z.of_nat
                              (observations Samples.bigram_counts 2 (lit "T"))))%Qc))
               alphabet)
    ∧ (observations Samples.bigram_counts 2 (lit "T") = 0%nat →
       d = map (λ s, (s, decimal 1 27)) alphabet).
Proof.
  apply (probabilities_normalized Samples.bigram_counts 2 (lit "T")).
  apply (bool_decide_unpack _). by vm_compute.
Defined.

Example probabilities_seen :
  observations Samples.bigram_counts 2 (lit "T") = 3%nat
  ∧ count Samples.bigram_counts 2 (lit "T") 72%N = 2%nat
  ∧ observations Samples.bigram_counts 3 (lit "TH") = 0%nat
  ∧ probabilities Samples.bigram_counts 5 (lit "THEN") = inl InvalidArgument.
Proof. repeat split; vm_compute; reflexivity. Qed.

End ngram.

(** ** formatGeneratedText *)

Section format_generated_text.
Import GenerationService.

Lemma split_char_from_cons sep cur s :
  ∃ w ws, split_char_from sep cur s = w :: ws.
Proof.
  destruct s as [|c s]; cbn [split_char_from]; [by eauto|].
  destruct (c =? sep)%N; [by eauto|].
  revert cur c. induction s as [|d s IH]; intros cur c; cbn [split_char_from];
    [by eauto|].
  destruct (d =? sep)%N; [by eauto|]. apply IH.
Qed.

Lemma join_cons sep w w' ws :
  join sep (w :: w' :: ws) = w ++ sep ++ join sep (w' :: ws).
Proof. reflexivity. Qed.

Lemma join_split_char_from sep cur s :
  join [sep] (split_char_from sep cur s) = cur ++ s.
Proof.
  revert cur. induction s as [|c s IH]; intros cur; cbn [split_char_from].
  - by rewrite app_nil_r.
  - destruct (N.eqb_spec c sep) as [->|Hne].
    + destruct (split_char_from_cons sep [] s) as (w & ws & Hs).
      specialize (IH []). rewrite Hs in *. rewrite join_cons, IH. done.
    + rewrite IH, <- app_assoc. done.
Qed.


(** The words after the mask has been applied, from index [i] on. *)
Lemma length_join_brackets (mask : list bool) (words : list jsstring) i :
  words ≠ [] →
  length (join (lit " ")
            (imap (λ index word,
                     match mask !! (i + index)%nat with
                     | Some false => lit "[" ++ word ++ lit "]"
                     | Some true | None => word
                     end) words))
  = (length (join (lit " ") words)
     + 2 * length (filter (λ b, b = false) (take (length words) (drop i mask))))%nat.
Proof.
  revert i. induction words as [|w ws IH]; intros i Hne; [done|].
  destruct ws as [|w' ws].
  - cbn [imap join length].
    rewrite <- (lookup_drop mask i 0).
    destruct (drop i mask) as [|b rest]; cbn [lookup list_lookup take].
    + cbn. lia.
    + rewrite take_0. destruct b.
      * rewrite filter_cons_False by done. cbn. lia.
      * rewrite filter_cons_True by done. rewrite !length_app. cbn. lia.
  - rewrite imap_cons. 
    assert (Himap : ∀ f : nat → jsstring → jsstring,
               imap f (w' :: ws) = f 0%nat w' :: imap (f ∘ S) ws) by done.
    rewrite Himap, join_cons, <- Himap. rewrite join_cons.
    rewrite !length_app.
    rewrite (imap_ext _ (λ index word,
       match mask !! (S i + index)%nat with
       | Some false => lit "[" ++ word ++ lit "]"
       | _ => word end) (w' :: ws)); last first.
    { intros j x _. unfold compose. by replace (i + S j)%nat with (S i + j)%nat by lia. }
    rewrite IH by done.
    rewrite <- (lookup_drop mask i 0).
    change (length (w :: w' :: ws)) with (S (length (w' :: ws))).
    destruct (drop i mask) as [|b rest] eqn:Hd.
    + assert (drop (S i) mask = []) as ->.
      { replace (S i) with (i + 1)%nat by lia. by rewrite <- drop_drop, Hd. }
      rewrite !take_nil. cbn. lia.
    + assert (drop (S i) mask = rest) as ->.
      { replace (S i) with (i + 1)%nat by lia. by rewrite <- drop_drop, Hd. }
      cbn [take lookup list_lookup]. destruct b.
      * rewrite filter_cons_False by done. lia.
      * rewrite filter_cons_True by done. rewrite !length_app. cbn [length lit]. 
        cbn. lia.
Qed.

Lemma imap_id_ext {A} (f : nat → A → A) (l : list A) :
  (∀ i x, l !! i = Some x → f i x = x) → imap f l = l.
Proof.
  revert f. induction l as [|x l IH]; intros f Hf; [done|].
  cbn [imap]. f_equal.
  - by apply (Hf 0%nat).
  - apply IH. intros i y Hy. by apply (Hf (S i)).
Qed.

Lemma split_char_join text : join (lit " ") (split_char 32 text) = text.
Proof. apply (join_split_char_from 32 [] text). Qed.

Lemma length_formatGeneratedText text validMask :
  length (formatGeneratedText text validMask)
  = (length text
     + 2 * length (filter (λ b, b = false)
                     (take (length (split_char 32 text)) (default [] validMask))))%nat.
Proof.
  destruct validMask as [[|b mask]|]; cbn [formatGeneratedText default from_option id].
  - rewrite take_nil. cbn. lia.
  - pose proof (length_join_brackets (b :: mask) (split_char 32 text) 0) as H.
    cbn [Nat.add drop] in H. rewrite H.
    + by rewrite split_char_join.
    + unfold split_char. by destruct (split_char_from_cons 32 [] text) as (w & ws & ->).
  - rewrite take_nil. cbn. lia.
Qed.


(** X2. [formatGeneratedText] returns the text itself exactly when no
    word is flagged, that is, when no mask entry that has a word is
    [false]; splitting at the spaces and joining with spaces loses
    nothing, whatever the spacing of the text. *)
Theorem formatGeneratedText_unchanged_iff (text : jsstring) (validMask : option (list bool)) :
  formatGeneratedText text validMask = text
  ↔ ∀ index, (index < length (split_char 32 text))%nat →
             default [] validMask !! index ≠ Some false.
Proof.
  split.
  - intros Heq index Hlt Hfalse.
    pose proof (length_formatGeneratedText text validMask) as Hlen.
    rewrite Heq in Hlen.
    assert (Hin : false ∈ filter (λ b, b = false)
              (take (length (split_char 32 text)) (default [] validMask))).
    { apply list_elem_of_filter. split; [done|].
      apply list_elem_of_lookup. exists index. by rewrite lookup_take_lt. }
    destruct (filter _ (take _ _)); [by apply elem_of_nil in Hin|].
    cbn [length] in Hlen. lia.
  - intros Hno. destruct validMask as [[|b mask]|]; cbn [formatGeneratedText]; [done| |done].
    cbn [default from_option id] in Hno. rewrite imap_id_ext.
    + apply split_char_join.
    + intros i w Hw. specialize (Hno i (lookup_lt_Some _ _ _ Hw)).
      destruct ((b :: mask) !! i) as [[]|]; done.
Qed.

End format_generated_text.

(** ** The API errors and the training service *)

Section training_service.
Import TrainingService.

(** X3. The status classes of an [ApiError] do not overlap: a status is
    at most one of network error, client error and server error, and
    the statuses 404, 401 and 403 that [isNotFound], [isUnauthorized]
    and [isForbidden] single out are client errors and pairwise
    distinct. *)
Theorem ApiError_status_classes (status : Z) :
  (isNetworkError status && isClientError status = false)
  ∧ (isNetworkError status && isServerError status = false)
  ∧ (isClientError status && isServerError status = false)
  ∧ (isNotFound status || isUnauthorized status || isForbidden status = true →
     isClientError status = true)
  ∧ (isNotFound status && isUnauthorized status = false)
  ∧ (isNotFound status && isForbidden status = false)
  ∧ (isUnauthorized status && isForbidden status = false).
Proof.
  unfold isNetworkError, isClientError, isServerError, isNotFound,
    isUnauthorized, isForbidden.
  repeat match goal with |- _ ∧ _ => split end; try intros H;
    repeat match goal with
           | |- context [?a =? ?b] => destruct (Z.eqb_spec a b)
           | |- context [?a <=? ?b] => destruct (Z.leb_spec a b)
           | |- context [?a <? ?b] => destruct (Z.ltb_spec a b)
           | H : context [?a =? ?b] |- _ => destruct (Z.eqb_spec a b)
           end; cbn in *; try done; try lia.
Qed.

Lemma trimStart_nil_all s : trimStart s = [] ↔ Forall (λ c, is_whitespace c = true) s.
Proof.
  induction s as [|c s IH]; cbn [trimStart]; [by split|].
  destruct (is_whitespace c) eqn:Hc.
  - rewrite IH. split; [by constructor|]. by inversion 1.
  - split; [done|]. inversion 1; congruence.
Qed.

Lemma trimStart_head s c t : trimStart s = c :: t → is_whitespace c = false.
Proof.
  induction s as [|d s IH]; cbn [trimStart]; [done|].
  destruct (is_whitespace d) eqn:Hd; [done|]. congruence.
Qed.

Lemma trim_nil_all s : trim s = [] ↔ Forall (λ c, is_whitespace c = true) s.
Proof.
  unfold trim. split.
  - intros H. apply (f_equal (@rev N)) in H. rewrite rev_involutive in H.
    cbn [rev] in H. apply trimStart_nil_all, Forall_rev in H.
    rewrite rev_involutive in H. apply trimStart_nil_all.
    destruct (trimStart s) as [|c t] eqn:Hs; [done|].
    apply trimStart_head in Hs. inversion H; congruence.
  - intros H. apply trimStart_nil_all in H. by rewrite H.
Qed.

Lemma truthy_range (x : option Qc) (lo hi : Qc) :
  truthy_number x
  && match x with
     | Some b => bool_decide (b < lo ∨ hi < b)%Qc
     | None => false
     end = false
  ↔ ∀ b, x = Some b → b = 0%Qc ∨ (lo <= b ∧ b <= hi)%Qc.
Proof.
  destruct x as [b|]; cbn [truthy_number]; [|by split].
  rewrite andb_false_iff, negb_false_iff, bool_decide_eq_true, bool_decide_eq_false.
  split.
  - intros [H|H] ? [= <-]; [by left|right].
    split; apply Qcnot_lt_le; tauto.
  - intros H. destruct (H b eq_refl) as [?|[H1 H2]]; [by left|right].
    intros [?|?]; eapply Qclt_not_le; eauto.
Qed.

Lemma validateConfig_nil (config : TrainingConfig) :
  validateConfig config = []
  ↔ bool_decide (text config = []) || bool_decide (trim (text config) = []) = false
    ∧ negb (bool_decide (text config = []))
      && bool_decide (utf16_length (text config) < 100)%nat = false
    ∧ truthy_number (block_size config)
      && match block_size config with
         | Some b => bool_decide (b < Qc_of_Z 1000 ∨ Qc_of_Z 1000000 < b)%Qc
         | None => false
         end = false
    ∧ truthy_number (epochs config)
      && match epochs config with
         | Some e => bool_decide (e < 1 ∨ Qc_of_Z 100 < e)%Qc
         | None => false
         end = false.
Proof.
  unfold validateConfig.
  destruct (bool_decide (text config = []) || bool_decide (trim (text config) = []));
    destruct (negb (bool_decide (text config = [])) && _);
    destruct (truthy_number (block_size config) && _);
    destruct (truthy_number (epochs config) && _);
    cbn; split; try done; intros (? & ? & ? & ?); done.
Qed.

(** X4. [validateConfig] accepts a configuration exactly when its text
    has a character that is not white space and at least 100 UTF-16
    code units, and the block size and the number of epochs are each
    missing, zero or within their range: a zero passes, as the checks
    are guarded by the truthiness of the number. *)
Theorem validateConfig_accepts_iff (config : TrainingConfig) :
  validateConfig config = []
  ↔ (∃ c, c ∈ text config ∧ is_whitespace c = false)
    ∧ (100 ≤ utf16_length (text config))%nat
    ∧ (∀ b, block_size config = Some b →
            b = 0%Qc ∨ (Qc_of_Z 1000 <= b ∧ b <= Qc_of_Z 1000000)%Qc)
    ∧ (∀ e, epochs config = Some e →
            e = 0%Qc ∨ (1 <= e ∧ e <= Qc_of_Z 100)%Qc).
Proof.
  rewrite validateConfig_nil, !truthy_range.
  assert (Htext : bool_decide (text config = []) || bool_decide (trim (text config) = [])
                  = false
                  ↔ ∃ c, c ∈ text config ∧ is_whitespace c = false).
  { rewrite orb_false_iff, !bool_decide_eq_false, trim_nil_all.
    split.
    - intros [_ H]. apply (not_Forall_Exists _) in H.
      apply Exists_exists in H as (c & Hc & Hw). exists c.
      split; [done|]. apply not_true_is_false, Hw.
    - intros (c & Hc & Hw). split.
      + intros Hnil. rewrite Hnil in Hc. by apply elem_of_nil in Hc.
      + intros H. rewrite Forall_forall in H. specialize (H c Hc). congruence. }
  rewrite Htext.
  assert (Hlen : (∃ c, c ∈ text config ∧ is_whitespace c = false) →
                 negb (bool_decide (text config = []))
                 && bool_decide (utf16_length (text config) < 100)%nat = false
                 ↔ (100 ≤ utf16_length (text config))%nat).
  { intros (c & Hc & _). rewrite andb_false_iff, negb_false_iff, bool_decide_eq_true,
      bool_decide_eq_false. split.
    - intros [Hnil|?]; [|lia]. rewrite Hnil in Hc. by apply elem_of_nil in Hc.
    - intros ?. right. lia. }
  split.
  - intros (Hc & Hl & Hb & He). by rewrite <- (Hlen Hc).
  - intros (Hc & Hl & Hb & He). by rewrite (Hlen Hc).
Qed.

Lemma or_number_range (x : option Qc) (d lo hi : Qc) :
  (lo <= d ∧ d <= hi)%Qc →
  (∀ b, x = Some b → b = 0%Qc ∨ (lo <= b ∧ b <= hi)%Qc) →
  (lo <= or_number x d ∧ or_number x d <= hi)%Qc.
Proof.
  intros Hd Hx. destruct x as [b|]; cbn [or_number]; [|done].
  case_bool_decide as Hb; [done|]. by destruct (Hx b eq_refl).
Qed.

Lemma Qc_of_Z_le (a b : Z) : a ≤ b → (Qc_of_Z a <= Qc_of_Z b)%Qc.
Proof. intros H. by rewrite <- Z2Qc_inj_le. Qed.

(** X5. [startTraining] of a configuration that [validateConfig]
    accepts issues exactly one request, a POST to /api/train whose body
    has the text unchanged, a block size between 1,000 and 1,000,000
    and between 1 and 100 epochs: a missing or zero block size or
    number of epochs, which validation lets through, is replaced by the
    default 100000 or 5. *)
Theorem startTraining_posts_within_ranges {World : Type}
    (submitted : Request → World → (jsstring * Z + TrainingJobResponse) * World)
    (config : TrainingConfig) (n : Net) :
  validateConfig config = [] →
  ∃ b e : Qc,
    sent (startTraining submitted config n).2
    = sent n ++ [{| method := POST; url := lit "/api/train";
                    payload := Some (<["text" := JStr (text config)]>
                                     (<["block_size" := JNum b]>
                                     (<["epochs" := JNum e]> ∅))) |}]
    ∧ (Qc_of_Z 1000 <= b ∧ b <= Qc_of_Z 1000000)%Qc
    ∧ (1 <= e ∧ e <= Qc_of_Z 100)%Qc
    ∧ (block_size config = Some b ∨ b = Qc_of_Z 100000)
    ∧ (epochs config = Some e ∨ e = Qc_of_Z 5).
Proof.
  intros Hvalid. apply validateConfig_nil in Hvalid as (_ & _ & Hb & He).
  rewrite truthy_range in Hb, He.
  exists (or_number (block_size config) (Qc_of_Z 100000)),
         (or_number (epochs config) (Qc_of_Z 5)).
  split; [|split; [|split; [|split]]].
  - unfold startTraining, try_catch, bind, request, ret, throw.
    destruct (submitted _ (world n)) as [[[m st]|r] w]; cbn; done.
  - apply or_number_range; [|done]. split; apply Qc_of_Z_le; lia.
  - apply or_number_range; [|done]. split; [apply (Qc_of_Z_le 1 5)|apply Qc_of_Z_le]; lia.
  - destruct (block_size config) as [b|]; cbn [or_number]; [|by right].
    case_bool_decide; [by right|by left].
  - destruct (epochs config) as [b|]; cbn [or_number]; [|by right].
    case_bool_decide; [by right|by left].
Qed.

Lemma startTraining_posts_within_ranges_witness :
  ∃ b e : Qc,
    sent (startTraining Samples.job_server Samples.training_config
            {| world := tt; sent := [] |}).2
    = [] ++ [{| method := POST; url := lit "/api/train";
                payload := Some (<["text" := JStr (text Samples.training_config)]>
                                 (<["block_size" := JNum b]>
                                 (<["epochs" := JNum e]> ∅))) |}]
    ∧ (Qc_of_Z 1000 <= b ∧ b <= Qc_of_Z 1000000)%Qc
    ∧ (1 <= e ∧ e <= Qc_of_Z 100)%Qc
    ∧ (block_size Samples.training_config = Some b ∨ b = Qc_of_Z 100000)
    ∧ (epochs Samples.training_config = Some e ∨ e = Qc_of_Z 5).
Proof.
  apply (startTraining_posts_within_ranges Samples.job_server Samples.training_config
           {| world := tt; sent := [] |}).
  vm_compute. reflexivity.
Defined.


Lemma poller_invariant (events : list PollEvent) :
  let s := foldl poll_event pollProgress events in
  (in_flight s + pending s ≤ 1)%nat
  ∧ requests s = (length (reported s) + in_flight s)%nat
  ∧ (∀ i p, reported s !! i = Some p → is_done p = true →
            S i = length (reported s)
            ∧ stopped s = true ∧ in_flight s = 0%nat ∧ pending s = 0%nat).
Proof.
  induction events as [|e events IH] using rev_ind.
  { cbn. split; [lia|]. split; [lia|]. by intros [|?] ? ?. }
  rewrite foldl_app. cbn [foldl]. cbn zeta in *.
  destruct IH as (Hone & Hreq & Hdone).
  set (s := foldl poll_event pollProgress events) in *. clearbody s.
  assert (Hnone : (0 < in_flight s + pending s)%nat →
                  ∀ i p, reported s !! i = Some p → is_done p = false).
  { intros Hpos i p Hp. destruct (is_done p) eqn:Hd; [|done].
    destruct (Hdone i p Hp Hd) as (_ & _ & ? & ?). lia. }
  destruct e as [|outcome|]; cbn [poll_event].
  - destruct (pending s) as [|k] eqn:Hk; unfold timer_fires; rewrite Hk;
      [by rewrite Hk|].
    unfold poll. cbn [stopped]. destruct (stopped s);
      cbn [in_flight pending requests reported stopped];
      (split; [lia|]); (split; [lia|]);
      intros i p Hp Hd; rewrite (Hnone ltac:(lia) i p Hp) in Hd; done.
  - destruct (in_flight s) as [|k] eqn:Hk; unfold poll_answered; rewrite Hk;
      [by rewrite Hk|].
    assert (Hlast : ∀ q i p, (reported s ++ [q]) !! i = Some p → is_done p = true →
                             S i = length (reported s ++ [q]) ∧ p = q).
    { intros q i p Hp Hd. rewrite length_app. cbn [length].
      apply lookup_app_Some in Hp as [Hp|[Hle Hp]].
      - rewrite (Hnone ltac:(lia) i p Hp) in Hd. done.
      - apply list_lookup_singleton_Some in Hp as [Hi ->]. split; [lia|done]. }
    destruct outcome as [err|p0]; cbn [in_flight pending requests reported stopped].
    + rewrite length_app at 1. cbn [length]. split; [lia|]. split; [lia|].
      intros i p Hp Hd. destruct (Hlast _ i p Hp Hd) as [Hi ->].
      split; [done|]. split; [done|]. lia.
    + rewrite length_app at 1. cbn [length]. destruct (is_done p0) eqn:Hp0.
      * split; [lia|]. split; [lia|].
        intros i p Hp Hd. destruct (Hlast _ i p Hp Hd) as [Hi ->].
        split; [done|]. split; [done|]. lia.
      * split; [lia|]. split; [lia|].
        intros i p Hp Hd. destruct (Hlast _ i p Hp Hd) as [Hi ->]. congruence.
  - unfold stop_called. cbn [in_flight pending requests reported stopped].
    split; [lia|]. split; [lia|].
    intros i p Hp Hd. destruct (Hdone i p Hp Hd) as (? & ? & ? & ?). done.
Qed.

Lemma poller_stopped (events : list PollEvent) (s : Poller) :
  stopped s = true →
  let s' := foldl poll_event s events in
  stopped s' = true ∧ requests s' = requests s
  ∧ ∃ late, reported s' = reported s ++ late
            ∧ (length late + in_flight s')%nat = in_flight s.
Proof.
  intros Hs. induction events as [|e events IH] using rev_ind.
  { cbn. repeat split; try done. exists []. by rewrite app_nil_r. }
  rewrite foldl_app. cbn [foldl]. cbn zeta in *.
  destruct IH as (Hst & Hreq & late & Hrep & Hlen).
  set (s' := foldl poll_event s events) in *. clearbody s'.
  destruct e as [|outcome|]; cbn [poll_event].
  - destruct (pending s') as [|k] eqn:Hk; unfold timer_fires; rewrite Hk;
      [by eauto 10|].
    unfold poll. cbn [stopped]. rewrite Hst.
    cbn [in_flight pending requests reported stopped]. by eauto 10.
  - destruct (in_flight s') as [|k] eqn:Hk; unfold poll_answered; rewrite Hk.
    { rewrite <- Hk in Hlen. by eauto 10. }
    destruct outcome as [err|p0]; cbn [in_flight pending requests reported stopped].
    + repeat split; try done. exists (late ++ [failure_report err]).
      rewrite Hrep, <- app_assoc, length_app. cbn [length]. split; [done|lia].
    + repeat split; try done.
      * by destruct (is_done p0).
      * exists (late ++ [p0]).
        rewrite Hrep, <- app_assoc, length_app. cbn [length]. split; [done|lia].
  - unfold stop_called. cbn [in_flight pending requests reported stopped].
    by eauto 10.
Qed.

(** X7. The poller of [pollProgress] never has two polls outstanding:
    after any sequence of timer firings, answers and calls of the stop
    function, at most one request is in flight or one timer is pending,
    never both, and every request but the one in flight has been
    reported to [onProgress] exactly once. *)
Theorem pollProgress_never_overlaps (events : list PollEvent) :
  let s := foldl poll_event pollProgress events in
  (in_flight s + pending s ≤ 1)%nat
  ∧ requests s = (length (reported s) + in_flight s)%nat.
Proof.
  destruct (poller_invariant events) as (H1 & H2 & _). done.
Qed.

(** X8. A terminal report is the last one: when [onProgress] has been
    given a progress with status success or error (the report of a
    failed request included), it is the latest report, the poller is
    stopped with nothing in flight and no timer pending, and whatever
    happens afterwards no request is sent and nothing is reported. *)
Theorem pollProgress_terminal_report_is_last (events later : list PollEvent)
    (i : nat) (p : TrainingProgress) :
  let s := foldl poll_event pollProgress events in
  reported s !! i = Some p →
  is_done p = true →
  S i = length (reported s)
  ∧ stopped s = true ∧ quiet s
  ∧ reported (foldl poll_event s later) = reported s
  ∧ requests (foldl poll_event s later) = requests s.
Proof.
  intros s Hp Hd.
  destruct (poller_invariant events) as (_ & _ & Hdone).
  destruct (Hdone i p Hp Hd) as (Hi & Hst & Hfl & Hpe). fold s in Hi, Hst, Hfl, Hpe.
  destruct (poller_stopped later s Hst) as (_ & Hreq & late & Hrep & Hlen).
  repeat split; try done.
  rewrite Hrep. destruct late; [by rewrite app_nil_r|]. cbn [length] in Hlen. lia.
Qed.

Lemma pollProgress_terminal_report_is_last_witness :
  let s := foldl poll_event pollProgress [Answered (inr Samples.finished)] in
  1%nat = length (reported s)
  ∧ stopped s = true ∧ quiet s
  ∧ reported (foldl poll_event s [TimerFires; Answered (inr Samples.finished)])
    = reported s
  ∧ requests (foldl poll_event s [TimerFires; Answered (inr Samples.finished)])
    = requests s.
Proof.
  apply (pollProgress_terminal_report_is_last [Answered (inr Samples.finished)]
           [TimerFires; Answered (inr Samples.finished)] 0 Samples.finished).
  - reflexivity.
  - reflexivity.
Defined.

(** X9. Calling the stop function is final: afterwards no request is
    sent, and [onProgress] is called at most once more, for the request
    that was in flight when the poller was stopped. *)
Theorem pollProgress_stop_is_final (events later : list PollEvent) :
  let s := foldl poll_event pollProgress events in
  let s' := foldl poll_event s (StopCalled :: later) in
  requests s' = requests s
  ∧ ∃ late, reported s' = reported s ++ late
            ∧ (length late ≤ in_flight s)%nat ∧ (length late ≤ 1)%nat.
Proof.
  intros s s'. destruct (poller_invariant events) as (Hone & _ & _). fold s in Hone.
  destruct (poller_stopped later (stop_called s) eq_refl)
    as (_ & Hreq & late & Hrep & Hlen).
  cbn [stop_called requests reported in_flight] in Hreq, Hrep, Hlen.
  split; [done|]. exists late. split; [done|]. lia.
Qed.

End training_service.

(** ** Training statistics *)

Section training_statistics.
Import TrainingService.

Lemma size_list_to_set_le (l : list jsstring) :
  (size (list_to_set l : gset jsstring) ≤ length l)%nat.
Proof.
  induction l as [|x l IH]; [done|].
  cbn [list_to_set length]. rewrite size_union_alt, size_singleton.
  pose proof (subseteq_size (list_to_set l ∖ {[x]}) (list_to_set l : gset jsstring)
                ltac:(apply subseteq_difference_l; done)).
  lia.
Qed.

Lemma size_list_to_set_0 (l : list jsstring) :
  size (list_to_set l : gset jsstring) = 0%nat ↔ l = [].
Proof.
  split; [|by intros ->].
  intros H. apply size_empty_inv in H. destruct l as [|x l]; [done|].
  exfalso. apply (not_elem_of_empty (C:=gset jsstring) x).
  rewrite <- H. apply elem_of_list_to_set. by left.
Qed.

Lemma split_ws_from_no_word (in_run : bool) (cur s : jsstring) :
  filter (λ word, (0 < length word)%nat) (split_ws_from in_run cur s) = []
  ↔ cur = [] ∧ Forall (λ c, is_whitespace c = true) s.
Proof.
  revert in_run cur. induction s as [|c s IH]; intros in_run cur; cbn [split_ws_from].
  - destruct cur as [|d cur].
    + by rewrite filter_cons_False by (cbn; lia).
    + rewrite filter_cons_True by (cbn; lia). split; [done|]. by intros [? _].
  - destruct (is_whitespace c) eqn:Hc.
    + destruct in_run.
      * rewrite IH. split; intros [? H]; (split; [done|]).
        -- by constructor.
        -- by inversion H.
      * destruct cur as [|d cur].
        -- rewrite filter_cons_False by (cbn; lia). rewrite IH.
           split; intros [? H]; (split; [done|]).
           ++ by constructor.
           ++ by inversion H.
        -- rewrite filter_cons_True by (cbn; lia). split; [done|]. by intros [? _].
    + rewrite IH. split.
      * intros [H _]. by destruct cur.
      * intros [_ H]. inversion H; congruence.
Qed.

Lemma cleaned_whitespace (c : N) :
  in_A_Z_space c = true → is_whitespace c = true ↔ c = 32%N.
Proof.
  unfold in_A_Z_space. intros Hc. apply orb_true_iff in Hc as [Hc|Hc].
  - apply andb_true_iff in Hc as [Hlo Hhi]. apply N.leb_le in Hlo, Hhi.
    split; [|lia]. unfold is_whitespace. intros H. exfalso.
    repeat match type of H with
           | (_ || _) = true => apply orb_true_iff in H as [H|H]
           | (_ && _) = true => apply andb_true_iff in H as [? ?]
           end;
      repeat match goal with
             | H : (_ <=? _)%N = true |- _ => apply N.leb_le in H
             | H : (_ =? _)%N = true |- _ => apply N.eqb_eq in H
             end; lia.
  - apply N.eqb_eq in Hc as ->. done.
Qed.

Lemma cleanText_in_class (upper : N → list N) (text : jsstring) :
  Forall (λ c, in_A_Z_space c = true) (cleanText upper text).
Proof.
  unfold cleanText. apply Forall_forall. intros c Hc.
  by apply list_elem_of_filter in Hc as [Hc _].
Qed.

Lemma cleanText_fixed (upper : N → list N) (text : jsstring) :
  (∀ c, c ∈ NGram.alphabet → upper c = [c]) →
  Forall (λ c, in_A_Z_space c = true) text → cleanText upper text = text.
Proof.
  intros Hupper. induction 1 as [|c text Hc Htext IH]; [done|].
  rewrite cleanText_cons, (Hupper c (in_A_Z_space_alphabet c Hc)), filter_cons.
  rewrite decide_True by done. cbn. by rewrite IH.
Qed.

(** X10. The counts of [calculateStats]: there are no more unique
    patterns than patterns, none of either exactly when the cleaned text
    has no letter (it is empty or all spaces), and the memory usage
    is the length of the cleaned text in mebibytes, so that symbols the
    cleaning removes do not count. *)
Theorem calculateStats_counts (upper : N → list N) (text : jsstring) :
  let stats := calculateStats upper text in
  (unique_patterns stats ≤ total_patterns stats)%nat
  ∧ (unique_patterns stats = 0%nat ↔ total_patterns stats = 0%nat)
  ∧ (total_patterns stats = 0%nat
     ↔ Forall (λ c, c = 32%N) (cleanText upper text))
  ∧ (memory_usage stats * Qc_of_Z (1024 * 1024)
     = Qc_of_Z (Z.of_nat (length (cleanText upper text))))%Qc.
Proof.
  cbn zeta. unfold calculateStats. cbn [unique_patterns total_patterns memory_usage].
  split; [apply size_list_to_set_le|]. split; [|split].
  - rewrite size_list_to_set_0. split; [by intros ->|].
    by intros ?%length_zero_iff_nil.
  - rewrite length_zero_iff_nil. unfold split_ws. rewrite split_ws_from_no_word.
    pose proof (cleanText_in_class upper text) as Hclass.
    rewrite !Forall_forall in *. split.
    + intros [_ H] c Hc. apply cleaned_whitespace; auto.
    + intros H. split; [done|]. intros c Hc.
      apply cleaned_whitespace; auto.
  - rewrite Z2Qc_inj_mul. field. done.
Qed.

(** X11. Cleaning is idempotent, and the statistics of a text are those
    of its cleaned text, provided upper-casing leaves the 27 symbols of
    the alphabet as they are. *)
Theorem calculateStats_of_cleaned (upper : N → list N) (text : jsstring) :
  (∀ c, c ∈ NGram.alphabet → upper c = [c]) →
  cleanText upper (cleanText upper text) = cleanText upper text
  ∧ calculateStats upper (cleanText upper text) = calculateStats upper text.
Proof.
  intros Hupper.
  assert (Hidem : cleanText upper (cleanText upper text) = cleanText upper text)
    by (apply cleanText_fixed; [done|apply cleanText_in_class]).
  split; [done|]. unfold calculateStats. by rewrite Hidem.
Qed.

Lemma calculateStats_of_cleaned_witness :
  let text := lit "The  quick, brown fox!" in
  cleanText latin_upper (cleanText latin_upper text) = cleanText latin_upper text
  ∧ calculateStats latin_upper (cleanText latin_upper text)
    = calculateStats latin_upper text.
Proof.
  apply (calculateStats_of_cleaned latin_upper (lit "The  quick, brown fox!")).
  exact latin_upper_alphabet.
Defined.

End training_statistics.

(** ** The polling manager: jobs and timers *)

Section polling_jobs.
Import PollingManager.

Lemma size_bijection (m1 : gmap string positive) (m2 : gmap positive string) :
  (∀ j h, m1 !! j = Some h ↔ m2 !! h = Some j) → size m1 = size m2.
Proof.
  revert m2. induction m1 as [|j h m1 Hj IH] using map_ind; intros m2 Hbij.
  - rewrite map_size_empty. symmetry. apply map_size_empty_iff, map_empty.
    intros h. destruct (m2 !! h) as [j|] eqn:Hh; [|done].
    apply Hbij in Hh. by rewrite lookup_empty in Hh.
  - assert (Hh : m2 !! h = Some j) by (apply Hbij; apply lookup_insert_eq).
    rewrite map_size_insert_None by done.
    rewrite (IH (delete h m2)).
    + rewrite map_size_delete_Some by eauto.
      assert (size m2 ≠ 0%nat); [|lia].
      apply map_size_non_empty_iff. intros ->. by rewrite lookup_empty in Hh.
    + intros j' h'. split.
      * intros Hj'. assert (j' ≠ j) by (intros ->; congruence).
        assert (m2 !! h' = Some j') as H2
          by (apply Hbij; by rewrite lookup_insert_ne).
        rewrite lookup_delete_ne; [done|]. intros ->. congruence.
      * intros Hh'. destruct (decide (h' = h)) as [->|Hne].
        { by rewrite lookup_delete_eq in Hh'. }
        rewrite lookup_delete_ne in Hh' by done.
        apply Hbij in Hh'. destruct (decide (j' = j)) as [->|Hnej].
        { rewrite lookup_insert_eq in Hh'. congruence. }
        by rewrite lookup_insert_ne in Hh'.
Qed.

Lemma timers_intervals (m : Manager) (j : string) (h : positive) :
  consistent m → timers m !! h = Some j ↔ intervals m !! j = Some h.
Proof. intros (_ & Hbij & _). symmetry. apply Hbij. Qed.

(** X12. The guard of the interval callback never triggers: in every
    state the manager can reach, the job of a live timer is active, so a
    firing interval leaves the manager as it is and runs the callback
    of its job. *)
Theorem fire_leaves_manager (ops : list Op) (h : positive) :
  fire h (run ops) = run ops
  ∧ ∀ jobId, timers (run ops) !! h = Some jobId → isPolling jobId (run ops) = true.
Proof.
  pose proof (consistent_run ops) as Hc.
  assert (Hlive : ∀ jobId, timers (run ops) !! h = Some jobId →
                           isPolling jobId (run ops) = true).
  { intros j Hj. apply (proj2 (isPolling_registered _ _ Hc)).
    exists h. by apply (timers_intervals _ _ _ Hc). }
  split; [|done]. unfold fire.
  destruct (timers (run ops) !! h) as [j|] eqn:Hj; [|done].
  by rewrite (Hlive j eq_refl).
Qed.

(** X13. Jobs do not interfere: starting or stopping one job leaves the
    interval, the timer and the polling state of every other job as
    they were. *)
Theorem polling_jobs_independent (ops : list Op) (jobId other : string) :
  jobId ≠ other →
  let m := run ops in
  (isPolling other (start jobId m) = isPolling other m
   ∧ intervals (start jobId m) !! other = intervals m !! other
   ∧ ∀ h, timers (start jobId m) !! h = Some other ↔ timers m !! h = Some other)
  ∧ (isPolling other (stop jobId m) = isPolling other m
     ∧ intervals (stop jobId m) !! other = intervals m !! other
     ∧ ∀ h, timers (stop jobId m) !! h = Some other ↔ timers m !! h = Some other).
Proof.
  intros Hne m. pose proof (consistent_run ops) as Hc. fold m in Hc.
  assert (Hstop : intervals (stop jobId m) !! other = intervals m !! other).
  { rewrite stop_intervals. by apply lookup_delete_ne. }
  assert (Hstart : intervals (start jobId m) !! other = intervals m !! other).
  { unfold start. cbn [intervals]. rewrite lookup_insert_ne by done. apply Hstop. }
  split; (split; [|split; [done|]]).
  - rewrite isPolling_start. by rewrite decide_False.
  - intros h. rewrite (timers_intervals _ _ _ (consistent_start jobId m Hc)).
    rewrite (timers_intervals _ _ _ Hc). by rewrite Hstart.
  - rewrite isPolling_stop. by rewrite decide_False.
  - intros h. rewrite (timers_intervals _ _ _ (consistent_stop jobId m Hc)).
    rewrite (timers_intervals _ _ _ Hc). by rewrite Hstop.
Qed.

Lemma polling_jobs_independent_witness :
  let m := run [Start "job-1"; Start "job-2"] in
  (isPolling "job-2" (start "job-1" m) = isPolling "job-2" m
   ∧ intervals (start "job-1" m) !! "job-2" = intervals m !! "job-2"
   ∧ ∀ h, timers (start "job-1" m) !! h = Some "job-2" ↔ timers m !! h = Some "job-2")
  ∧ (isPolling "job-2" (stop "job-1" m) = isPolling "job-2" m
     ∧ intervals (stop "job-1" m) !! "job-2" = intervals m !! "job-2"
     ∧ ∀ h, timers (stop "job-1" m) !! h = Some "job-2" ↔ timers m !! h = Some "job-2").
Proof.
  apply (polling_jobs_independent [Start "job-1"; Start "job-2"] "job-1" "job-2").
  discriminate.
Defined.

(** X14. [getActiveJobs] lists each job once, the listed jobs are those
    whose last [start] has not been followed by a [stop] of the job or
    a [stopAll], and there are as many of them as live timers: no
    interval is orphaned and no active job lacks one. *)
Theorem getActiveJobs_started (ops : list Op) :
  let m := run ops in
  NoDup (getActiveJobs m)
  ∧ (∀ jobId, jobId ∈ getActiveJobs m ↔ started jobId ops = true)
  ∧ length (getActiveJobs m) = size (timers m).
Proof.
  intros m. pose proof (consistent_run ops) as Hc. fold m in Hc.
  unfold getActiveJobs. split; [apply NoDup_elements|]. split.
  - intros j. rewrite elem_of_elements.
    pose proof (isPolling_track j ops empty consistent_empty) as Ht.
    fold (run ops) in Ht. fold m in Ht. unfold started.
    replace (isPolling j empty) with false in Ht by done.
    rewrite <- Ht. unfold isPolling. by rewrite bool_decide_eq_true.
  - destruct Hc as (Hdom & Hbij & _).
    change (length (elements (active m))) with (size (active m)).
    rewrite <- Hdom, size_dom. by apply size_bijection.
Qed.

End polling_jobs.

(** ** The stores between reloads *)

Section generation_history.
Import GenerationStore.





End generation_history.

Section training_store_commands.
Import TrainingStore.

Lemma stopPolling_state s : state (stopPolling s) = state s.
Proof. done. Qed.

(** X16. The training store never polls outside the status running:
    after any sequence of steps in any interleaving (a [start] beginning
    and its submission being answered or failing, clears, resumes,
    interval ticks and answers) the interval timer is held only while
    the status is 'running', and a job id kept in storage is the job the
    store follows, or the store follows none; [start] itself is its two
    halves in a row. *)
Theorem timer_held_only_while_running (saved_item : option jsstring)
    (commands : list Command) (r : Submitted) :
  let s := foldl apply_command (initial saved_item) commands in
  (pollTimer s = true → status (state s) = lit "running")
  ∧ (∀ j, saved s = Some j → jobId (state s) = None ∨ jobId (state s) = Some j)
  ∧ start r s = foldl apply_command s [StartBegins; StartAnswered r].
Proof.
  cbn zeta.
  cut ((pollTimer (foldl apply_command (initial saved_item) commands) = true →
        status (state (foldl apply_command (initial saved_item) commands))
        = lit "running")
       ∧ (∀ j, saved (foldl apply_command (initial saved_item) commands) = Some j →
               jobId (state (foldl apply_command (initial saved_item) commands)) = None
               ∨ jobId (state (foldl apply_command (initial saved_item) commands))
                 = Some j)).
  { intros [? ?]. split; [done|]. split; [done|]. by destruct r. }
  clear r. induction commands as [|c commands IH] using rev_ind.
  { cbn. split; [done|]. by left. }
  rewrite foldl_app. cbn [foldl]. destruct IH as [Htimer Hsaved].
  set (s := foldl apply_command (initial saved_item) commands) in *. clearbody s.
  destruct c as [[|f|]| |r'|]; cbn [apply_command apply_event].
  - unfold tick. destruct (pollTimer s) eqn:Ht; [|by rewrite Ht].
    unfold poll_begin. destruct (_ || _); cbn [stopPolling pollTimer state saved];
      (split; [done || auto|done]).
  - unfold answer. destruct (awaiting s) as [|k]; [done|].
    set (s' := {| state := state s; pollTimer := pollTimer s; saved := saved s;
                  awaiting := k |}).
    assert (Ht' : pollTimer s' = true → status (state s') = lit "running") by done.
    assert (Hs' : ∀ j, saved s' = Some j →
                       jobId (state s') = None ∨ jobId (state s') = Some j) by done.
    clearbody s'. clear Htimer Hsaved s.
    destruct f as [|code|data]; cbn [poll_answer]; [done| |].
    + case_bool_decide; [|done].
      cbn [stopPolling removeItem set_state pollTimer state saved]. done.
    + set (done := _ || _). destruct done;
        cbn [stopPolling removeItem set_state pollTimer state saved status jobId]; done.
  - unfold resume. destruct (truthy (saved s) && _) eqn:Hr; [|done].
    cbn [startPolling set_state pollTimer state saved status jobId].
    split; [done|]. intros j ->. by right.
  - unfold start_begin.
    cbn [stopPolling set_state pollTimer state saved status jobId]. done.
  - unfold start_answered. destruct r' as [|j]; [done|].
    cbn [startPolling set_state pollTimer state saved status jobId].
    split; [done|]. intros ? [= ->]. by right.
  - cbn [clear pollTimer saved]. done.
Qed.

(** X17. A submission that throws is not handled: [start] leaves the
    status 'queued' and the message 'Submitting job…' with no timer, and
    when no job is saved and no callback is waiting, no tick, answer or
    resume changes the store again. *)
Theorem failed_submission_stays_queued (s : Store) (events : list Event) :
  saved s = None → awaiting s = 0%nat →
  let s' := start SubmitThrew s in
  status (state s') = lit "queued"
  ∧ message (state s') = lit "Submitting job" ++ [8230%N]
  ∧ pollTimer s' = false
  ∧ foldl apply_event s' events = s'.
Proof.
  intros Hsaved Hwait s'. split; [done|]. split; [done|]. split; [done|].
  by apply at_rest_foldl.
Qed.

Lemma failed_submission_stays_queued_witness :
  let s' := start SubmitThrew (initial None) in
  status (state s') = lit "queued"
  ∧ message (state s') = lit "Submitting job" ++ [8230%N]
  ∧ pollTimer s' = false
  ∧ foldl apply_event s' [Tick; Resume; Answer FetchThrew] = s'.
Proof.
  apply (failed_submission_stays_queued (initial None) [Tick; Resume; Answer FetchThrew]).
  - reflexivity.
  - reflexivity.
Defined.

End training_store_commands.

(** ** Monte Carlo statistics *)

Section monte_carlo_statistics.
Import MonteCarloStore.

Lemma sum_acc (a : Qc) (l : list Qc) : foldl Qcplus a l = (a + sum l)%Qc.
Proof.
  unfold sum. revert a. induction l as [|x l IH]; intros a; cbn [foldl].
  - ring.
  - rewrite (IH (a + x)%Qc), (IH (0 + x)%Qc). ring.
Qed.

Lemma sum_cons (x : Qc) (l : list Qc) : sum (x :: l) = (x + sum l)%Qc.
Proof. unfold sum at 1. cbn [foldl]. rewrite sum_acc. ring. Qed.

Lemma sum_Permutation (l k : list Qc) : l ≡ₚ k → sum l = sum k.
Proof.
  induction 1 as [|x l k _ IH|x y l|l k m _ IH1 _ IH2].
  - done.
  - by rewrite !sum_cons, IH.
  - rewrite !sum_cons. ring.
  - by rewrite IH1.
Qed.

Lemma Qc_of_nat_S (n : nat) :
  Qc_of_Z (Z.of_nat (S n)) = (Qc_of_Z (Z.of_nat n) + 1)%Qc.
Proof. by rewrite Nat2Z.inj_succ, <- Z.add_1_r, Z2Qc_inj_add. Qed.

Lemma sum_lower (lo : Qc) (l : list Qc) :
  Forall (λ x, lo ≤ x)%Qc l → (lo * Qc_of_Z (Z.of_nat (length l)) ≤ sum l)%Qc.
Proof.
  induction 1 as [|x l Hx _ IH].
  - cbn [length]. change (Z.of_nat 0) with 0. by rewrite Z2Qc_inj_0, Qcmult_0_r.
  - cbn [length]. rewrite Qc_of_nat_S, sum_cons.
    replace (lo * (Qc_of_Z (Z.of_nat (length l)) + 1))%Qc
      with (lo + lo * Qc_of_Z (Z.of_nat (length l)))%Qc by ring.
    by apply Qcplus_le_compat.
Qed.

Lemma sum_upper (hi : Qc) (l : list Qc) :
  Forall (λ x, x ≤ hi)%Qc l → (sum l ≤ hi * Qc_of_Z (Z.of_nat (length l)))%Qc.
Proof.
  induction 1 as [|x l Hx _ IH].
  - cbn [length]. change (Z.of_nat 0) with 0. by rewrite Z2Qc_inj_0, Qcmult_0_r.
  - cbn [length]. rewrite Qc_of_nat_S, sum_cons.
    replace (hi * (Qc_of_Z (Z.of_nat (length l)) + 1))%Qc
      with (hi + hi * Qc_of_Z (Z.of_nat (length l)))%Qc by ring.
    by apply Qcplus_le_compat.
Qed.

Lemma sum_nonneg (l : list Qc) : Forall (λ x, 0 ≤ x)%Qc l → (0 ≤ sum l)%Qc.
Proof.
  intros H. apply sum_lower in H. by rewrite Qcmult_0_l in H.
Qed.

Lemma Qc_square_nonneg (x : Qc) : (0 ≤ x * x)%Qc.
Proof.
  destruct (Qclt_le_dec x 0) as [Hneg|Hpos].
  - replace (x * x)%Qc with ((- x) * (- x))%Qc by ring.
    assert (0 ≤ - x)%Qc.
    { apply Qclt_le_weak in Hneg. apply Qcle_minus_iff in Hneg.
      by rewrite Qcplus_0_l in Hneg. }
    by apply Qcmult_nonneg_nonneg.
  - by apply Qcmult_nonneg_nonneg.
Qed.

Lemma div_lower (lo s n : Qc) : (0 < n)%Qc → (lo * n ≤ s)%Qc → (lo ≤ s / n)%Qc.
Proof.
  intros Hn H. apply (Qcmult_le_mono_pos_r _ _ n); [done|].
  replace (s / n * n)%Qc with s; [done|].
  field. intros ->. by apply (irreflexivity Qclt 0%Qc).
Qed.

Lemma div_upper (hi s n : Qc) : (0 < n)%Qc → (s ≤ hi * n)%Qc → (s / n ≤ hi)%Qc.
Proof.
  intros Hn H. apply (Qcmult_le_mono_pos_r _ _ n); [done|].
  replace (s / n * n)%Qc with s; [done|].
  field. intros ->. by apply (irreflexivity Qclt 0%Qc).
Qed.

Lemma min_fold (a : Qc) (l : list Qc) :
  let m := foldl (λ a b, if decide (b < a)%Qc then b else a) a l in
  (m ≤ a)%Qc ∧ Forall (λ x, m ≤ x)%Qc l ∧ m ∈ a :: l.
Proof.
  revert a. induction l as [|x l IH]; intros a; cbn [foldl].
  - split; [done|]. split; [done|]. by left.
  - cbn zeta in *.
    destruct (decide (x < a)%Qc) as [Hlt|Hge].
    + destruct (IH x) as (H1 & H2 & H3).
      split; [|split].
      * transitivity x; [done|]. by apply Qclt_le_weak.
      * by constructor.
      * by right.
    + destruct (IH a) as (H1 & H2 & H3).
      split; [done|]. split.
      * constructor; [|done]. transitivity a; [done|]. by apply Qcnot_lt_le.
      * apply elem_of_cons in H3 as [->|H3]; [by left|]. right. by right.
Qed.

Lemma max_fold (a : Qc) (l : list Qc) :
  let m := foldl (λ a b, if decide (a < b)%Qc then b else a) a l in
  (a ≤ m)%Qc ∧ Forall (λ x, x ≤ m)%Qc l ∧ m ∈ a :: l.
Proof.
  revert a. induction l as [|x l IH]; intros a; cbn [foldl].
  - split; [done|]. split; [done|]. by left.
  - cbn zeta in *.
    destruct (decide (a < x)%Qc) as [Hlt|Hge].
    + destruct (IH x) as (H1 & H2 & H3).
      split; [|split].
      * transitivity x; [by apply Qclt_le_weak|done].
      * by constructor.
      * by right.
    + destruct (IH a) as (H1 & H2 & H3).
      split; [done|]. split.
      * constructor; [|done]. transitivity a; [by apply Qcnot_lt_le|done].
      * apply elem_of_cons in H3 as [->|H3]; [by left|]. right. by right.
Qed.

Lemma length_filter_Forall {A} (P : A → Prop) `{!∀ x, Decision (P x)} (l : list A) :
  Forall P l → length (filter P l) = length l.
Proof.
  induction 1 as [|x l Hx _ IH]; [done|].
  rewrite filter_cons_True by done. cbn [length]. by rewrite IH.
Qed.

(** The entry in the middle of a sorted list splits it. *)
Lemma sorted_middle (l : list Qc) (k : nat) (med : Qc) :
  StronglySorted Qcle l → l !! k = Some med →
  (k < length (filter (λ x, x ≤ med)%Qc l))%nat
  ∧ (length l ≤ k + length (filter (λ x, med ≤ x)%Qc l))%nat.
Proof.
  intros Hsorted Hk.
  pose proof (lookup_lt_Some _ _ _ Hk) as Hlt.
  rewrite <- (take_drop_middle l k med Hk) in Hsorted |- *.
  apply StronglySorted_app in Hsorted as (Hcross & _ & Hright).
  apply StronglySorted_cons in Hright as [Hright _].
  rewrite !filter_app, !length_app, !filter_cons_True by done.
  cbn [length]. rewrite length_take_le by lia. split.
  - rewrite length_filter_Forall; [rewrite length_take_le by lia; lia|].
    apply Forall_forall. intros x Hx. apply Hcross; [done|by left].
  - rewrite (length_filter_Forall (λ x, med ≤ x)%Qc (drop (S k) l)) by done. lia.
Qed.

Lemma calculateStats_nonempty (results : list SimulationResult) :
  results ≠ [] →
     ∃ stats, calculateStats results = Some (Some stats)
       ∧ min stats ∈ map validPercentage results
       ∧ max stats ∈ map validPercentage results
       ∧ median stats ∈ map validPercentage results
       ∧ (∀ r, r ∈ results →
               (min stats ≤ validPercentage r ∧ validPercentage r ≤ max stats)%Qc)
       ∧ (min stats ≤ mean stats ∧ mean stats ≤ max stats)%Qc
       ∧ (mean stats * Qc_of_Z (Z.of_nat (length results))
          = sum (map validPercentage results))%Qc
       ∧ (length results / 2
          < length (filter (λ x, x ≤ median stats)%Qc (map validPercentage results)))%nat
       ∧ (length results
          ≤ length results / 2
            + length (filter (λ x, median stats ≤ x)%Qc
                        (map validPercentage results)))%nat
       ∧ (0 ≤ stdDev_squared stats)%Qc.
Proof.
  intros Hne. unfold calculateStats.
  assert (Hlen : (0 < length results)%nat) by (destruct results; [done|cbn; lia]).
  rewrite bool_decide_eq_false_2 by lia.
  set (percentages := merge_sort Qcle (map validPercentage results)).
  assert (Hperm : percentages ≡ₚ map validPercentage results)
    by apply merge_sort_Permutation.
  assert (Hn : length percentages = length results)
    by (by rewrite Hperm, length_map).
  assert (Hsorted : StronglySorted Qcle percentages)
    by apply (StronglySorted_merge_sort Qcle).
  rewrite Hn.
  pose proof (Qc_of_nat_pos _ Hlen) as Hpos.
  pose proof (Qc_of_nat_nonzero _ Hlen) as Hnz.
  set (n := Qc_of_Z (Z.of_nat (length results))) in *.
  rewrite !js_div_Some by done. cbn [mbind option_bind].
  destruct (lookup_lt_is_Some_2 percentages (length results / 2)) as [med Hmed].
  { rewrite Hn. apply Nat.div_lt; lia. }
  rewrite Hmed. cbn [mbind option_bind].
  rewrite js_div_Some by done. cbn [mbind option_bind].
  destruct percentages as [|x rest] eqn:Hp; [cbn in Hn; lia|].
  cbn [Math_min Math_max mbind option_bind].
  destruct (min_fold x rest) as (Hlo1 & Hlo2 & Hlo3).
  destruct (max_fold x rest) as (Hhi1 & Hhi2 & Hhi3).
  set (lo := foldl (λ a b, if decide (b < a)%Qc then b else a) x rest) in *.
  set (hi := foldl (λ a b, if decide (a < b)%Qc then b else a) x rest) in *.
  assert (Hlo : Forall (λ y, lo ≤ y)%Qc (x :: rest)) by (by constructor).
  assert (Hhi : Forall (λ y, y ≤ hi)%Qc (x :: rest)) by (by constructor).
  eexists. split; [reflexivity|]. cbn [min max median mean stdDev_squared].
  split; [by rewrite <- Hperm|]. split; [by rewrite <- Hperm|].
  split; [rewrite <- Hperm; by apply list_elem_of_lookup_2 in Hmed|].
  split.
  { intros r Hr.
    assert (validPercentage r ∈ x :: rest)
      by (rewrite Hperm; by apply list_elem_of_fmap_2).
    rewrite Forall_forall in Hlo, Hhi. split; auto. }
  assert (Hlen' : length (x :: rest) = length results) by done.
  split.
  { split.
    - apply div_lower; [done|]. subst n. rewrite <- Hlen'. by apply sum_lower.
    - apply div_upper; [done|]. subst n. rewrite <- Hlen'. by apply sum_upper. }
  split.
  { rewrite <- (sum_Permutation _ _ Hperm). field. done. }
  destruct (sorted_middle _ _ _ Hsorted Hmed) as [Hbelow Habove].
  rewrite Hn in Habove. rewrite Hperm in Hbelow, Habove.
  split; [done|]. split; [done|].
  apply Qcmult_nonneg_nonneg; [|by apply Qclt_le_weak, Qcinv_pos].
  apply sum_nonneg, Forall_forall. intros y Hy.
  apply list_elem_of_fmap in Hy as (z & -> & _). apply Qc_square_nonneg.
Qed.


End monte_carlo_statistics.

(** ** The histogram of the Monte Carlo page *)

Section monte_carlo_histogram.
Import MonteCarloStore MonteCarloPage.

Lemma Qfloor_unique (x : Q) (k : Z) :
  (inject_Z k <= x)%Q → (x < inject_Z (k + 1))%Q → Qfloor x = k.
Proof.
  intros Hlo Hhi.
  pose proof (Qfloor_le x) as Hfl. pose proof (Qlt_floor x) as Hlt.
  assert (Qfloor x < k + 1).
  { rewrite Zlt_Qlt. eapply Qle_lt_trans; eauto. }
  assert (k < Qfloor x + 1).
  { rewrite Zlt_Qlt. eapply Qle_lt_trans; eauto. }
  lia.
Qed.

Lemma binIndex_iff (result : SimulationResult) (k : Z) :
  binIndex result = k * binSize
  ↔ (Qc_of_Z (k * binSize) ≤ validPercentage result
     ∧ validPercentage result < Qc_of_Z (k * binSize + binSize))%Qc.
Proof.
  unfold binIndex, binSize.
  set (x := validPercentage result). clearbody x.
  assert (Hq : Qeq (x / Qc_of_Z 4)%Qc (Qdiv x 4)).
  { unfold Qcdiv, Qcmult, Qcinv. simpl.
    etransitivity; [apply Qred_correct|].
    apply Qmult_comp; [reflexivity|apply Qred_correct]. }
  rewrite Hq. clear Hq.
  assert (Hx : Qeq x (4 * (x / 4))%Q) by field.
  assert (Hbounds : ∀ j : Z,
            (Qc_of_Z (j * 4) ≤ x ∧ x < Qc_of_Z (j * 4 + 4))%Qc
            ↔ (inject_Z j <= x / 4 ∧ x / 4 < inject_Z (j + 1))%Q).
  { intros j. unfold Qcle, Qclt. cbn [this Qc_of_Z Q2Qc].
    rewrite !inject_Z_plus, inject_Z_mult.
    change (inject_Z 4) with 4%Q. change (inject_Z 1) with 1%Q.
    set (q := (x / 4)%Q) in *. clearbody q. set (z := inject_Z j). clearbody z.
    split; intros [? ?]; split; lra. }
  rewrite Hbounds. split.
  - intros Hk. assert (Qfloor (x / 4) = k) as <- by lia.
    split; [apply Qfloor_le|apply Qlt_floor].
  - intros [Hlo Hhi]. f_equal. by apply Qfloor_unique.
Qed.

Lemma increment_absent (key : Z) (bins : list (Z * nat)) :
  has_key key bins = false → increment key bins = bins.
Proof.
  unfold has_key, increment. rewrite bool_decide_eq_false. intros Hkey.
  induction bins as [|[i c] bins IH]; [done|].
  cbn [map fst] in *. rewrite not_elem_of_cons in Hkey. destruct Hkey as [Hi Hkey].
  rewrite decide_False by done. f_equal. by apply IH.
Qed.

Lemma counted_bins (data : list SimulationResult) (bins : list (Z * nat)) :
  foldl (λ bins result,
           if has_key (binIndex result) bins
           then increment (binIndex result) bins
           else bins) bins data
  = map (λ entry,
           (entry.1,
            (entry.2 + length (filter (λ r, binIndex r = entry.1) data))%nat)) bins.
Proof.
  revert bins. induction data as [|r data IH]; intros bins; cbn [foldl].
  - rewrite <- (map_id bins) at 1. apply map_ext. intros [i c]. cbn. f_equal. lia.
  - assert (Hstep : (if has_key (binIndex r) bins then increment (binIndex r) bins
                     else bins) = increment (binIndex r) bins).
    { destruct (has_key (binIndex r) bins) eqn:Hkey; [done|].
      by rewrite increment_absent. }
    rewrite Hstep, IH. unfold increment. rewrite map_map. apply map_ext.
    intros [i c]. cbn [fst snd]. rewrite filter_cons.
    destruct (decide (i = binIndex r)) as [->|Hne].
    + rewrite decide_True by done. cbn [fst snd length]. f_equal. lia.
    + rewrite decide_False by done. done.
Qed.

Lemma sum_indicator (x : Z) (l : list Z) :
  NoDup l →
  sum_list (map (λ i, if decide (x = i) then 1%nat else 0%nat) l)
  = if decide (x ∈ l) then 1%nat else 0%nat.
Proof.
  induction 1 as [|i l Hi _ IH]; [done|].
  cbn [map sum_list]. rewrite IH.
  destruct (decide (x = i)) as [->|Hne].
  - rewrite (decide_False (P := i ∈ l)) by done.
    rewrite decide_True by (by left). done.
  - destruct (decide (x ∈ l)) as [Hin|Hout].
    + rewrite decide_True by (by right). done.
    + rewrite decide_False; [done|]. rewrite not_elem_of_cons. done.
Qed.

Lemma sum_counted (data : list SimulationResult) (l : list Z) :
  NoDup l →
  sum_list (map (λ i, length (filter (λ r, binIndex r = i) data)) l)
  = length (filter (λ r, binIndex r ∈ l) data).
Proof.
  intros Hl. induction data as [|r data IH].
  - cbn. induction l as [|i l IHl]; [done|]. cbn. apply IHl. by inversion Hl.
  - rewrite (filter_cons (λ r, binIndex r ∈ l)).
    assert (Hsum : sum_list (map (λ i, length (filter (λ r0, binIndex r0 = i) (r :: data))) l)
                   = (sum_list (map (λ i, if decide (binIndex r = i) then 1%nat else 0%nat) l)
                      + sum_list (map (λ i, length (filter (λ r0, binIndex r0 = i) data)) l))%nat).
    { clear. induction l as [|i l IHl]; [done|].
      cbn [map sum_list]. rewrite IHl, filter_cons.
      destruct (decide (binIndex r = i)); cbn [length]; unfold id; lia. }
    rewrite Hsum, IH, sum_indicator by done.
    destruct (decide (binIndex r ∈ l)); cbn [length]; lia.
Qed.

Lemma elem_of_bin_bounds (i : Z) : i ∈ bin_bounds ↔ ∃ k, i = k * binSize ∧ 0 ≤ k < 25.
Proof.
  unfold bin_bounds. rewrite list_elem_of_fmap. split.
  - intros (n & -> & Hn). apply elem_of_seq in Hn. exists (Z.of_nat n).
    split; [done|lia].
  - intros (k & -> & Hk). exists (Z.to_nat k). split; [by rewrite Z2Nat.id by lia|].
    apply elem_of_seq. lia.
Qed.

Lemma binIndex_in_bounds (r : SimulationResult) :
  binIndex r ∈ bin_bounds
  ↔ (0 ≤ validPercentage r ∧ validPercentage r < Qc_of_Z 100)%Qc.
Proof.
  rewrite elem_of_bin_bounds. unfold binSize. split.
  - intros (k & Hk & Hrange). apply binIndex_iff in Hk as [Hlo Hhi].
    unfold binSize in *. split.
    + transitivity (Qc_of_Z (k * 4)); [|done].
      rewrite <- Z2Qc_inj_0, <- Z2Qc_inj_le. lia.
    + eapply Qclt_le_trans; [exact Hhi|]. rewrite <- Z2Qc_inj_le. lia.
  - intros [Hlo Hhi].
    exists (Qfloor (validPercentage r / Qc_of_Z binSize)%Qc).
    split; [done|].
    destruct (proj1 (binIndex_iff r _) eq_refl) as [Hlo' Hhi'].
    set (k := Qfloor (validPercentage r / Qc_of_Z binSize)%Qc) in *. clearbody k.
    unfold binSize in *.
    assert (Qc_of_Z (k * 4) < Qc_of_Z 100)%Qc as H1 by (by eapply Qcle_lt_trans).
    assert (Qc_of_Z 0 < Qc_of_Z (k * 4 + 4))%Qc as H2
      by (rewrite Z2Qc_inj_0; by eapply Qcle_lt_trans).
    rewrite <- Z2Qc_inj_lt in H1, H2. lia.
Qed.

(** The histogram, bin by bin. *)
Lemma createHistogram_entries (data : list SimulationResult) :
  createHistogram data
  = Some (map (λ i : Z,
                 let counted := length (filter (λ r, binIndex r = i) data) in
                 {| bin := i;
                    count := counted;
                    percentage :=
                      if bool_decide (length data = 0)%nat then 0%Qc
                      else (Qc_of_Z (Z.of_nat counted)
                            / Qc_of_Z (Z.of_nat (length data)) * Qc_of_Z 100)%Qc |})
            bin_bounds).
Proof.
  unfold createHistogram. case_bool_decide as Hlen.
  - apply length_zero_iff_nil in Hlen as ->. done.
  - rewrite counted_bins.
    assert (Htotal : Qc_of_Z (Z.of_nat (length data)) ≠ 0%Qc)
      by (apply Qc_of_nat_nonzero; lia).
    apply mapM_Some_2. rewrite map_map. apply Forall2_fmap, Forall_Forall2_diag.
    apply Forall_forall. intros i _. cbn [fst snd]. rewrite js_div_Some by done.
    done.
Qed.

(** The bins together count the results from 0 up to but not including
    100. *)
Lemma createHistogram_counted (data : list SimulationResult) :
  sum_list (map (λ i, length (filter (λ r, binIndex r = i) data)) bin_bounds)
  = length (filter (λ r, (0 ≤ validPercentage r
                          ∧ validPercentage r < Qc_of_Z 100)%Qc) data).
Proof.
  assert (Hbounds : NoDup bin_bounds) by (apply (bool_decide_unpack _); by vm_compute).
  rewrite sum_counted by done. f_equal.
  apply list_filter_iff. intros r. apply binIndex_in_bounds.
Qed.

(** X19. The histogram of the page has the 25 bins from 0 to 96 in
    steps of 4, in this order; each bin counts the results whose
    percentage is at least its lower bound and below the next, and
    holds this count as a percentage of all results; the bins together
    count the results from 0 up to but not including 100, so that a run
    with every word valid is in no bin. *)
Theorem createHistogram_bins (data : list SimulationResult) :
  ∃ histogram,
    createHistogram data = Some histogram
    ∧ map bin histogram = bin_bounds
    ∧ (∀ entry, entry ∈ histogram →
         count entry
         = length (filter (λ r, (Qc_of_Z (bin entry) ≤ validPercentage r
                                 ∧ validPercentage r < Qc_of_Z (bin entry + binSize))%Qc)
                     data)
         ∧ (percentage entry * Qc_of_Z (Z.of_nat (length data))
            = Qc_of_Z (Z.of_nat (count entry)) * Qc_of_Z 100)%Qc)
    ∧ sum_list (map count histogram)
      = length (filter (λ r, (0 ≤ validPercentage r
                              ∧ validPercentage r < Qc_of_Z 100)%Qc) data).
Proof.
  eexists. split; [apply createHistogram_entries|].
  split; [|split].
  - rewrite map_map. cbn [bin]. apply map_id.
  - intros entry (i & -> & Hi)%list_elem_of_fmap. cbn [count percentage bin].
    apply elem_of_bin_bounds in Hi as (k & -> & _).
    split.
    + f_equal. apply list_filter_iff. intros r. apply binIndex_iff.
    + case_bool_decide as Hlen.
      * apply length_zero_iff_nil in Hlen as ->. cbn [filter list_filter length].
        change (Z.of_nat 0) with 0. by rewrite Z2Qc_inj_0, !Qcmult_0_l.
      * field. apply Qc_of_nat_nonzero. lia.
  - rewrite map_map. cbn [count]. apply createHistogram_counted.
Qed.

End monte_carlo_histogram.

(** ** The Monte Carlo store *)

Section monte_carlo_run.
Import MonteCarloStore.
Context {World : Type}.
Variable backend : GenerationService.ApiCall → World →
  (jsstring * Z + GenerationService.GenerationResponse) * World.

Lemma calculateStats_total (results : list SimulationResult) :
  ∃ stats, calculateStats results = Some stats.
Proof.
  destruct results as [|r results]; [by eexists|].
  destruct (calculateStats_nonempty (r :: results) ltac:(done)) as (stats & -> & _).
  by eexists.
Qed.


Lemma simulation_result_total (response : GenerationService.GenerationResponse) :
  ∃ result, simulation_result response = Some result
    ∧ (0 ≤ validPercentage result ∧ validPercentage result ≤ Qc_of_Z 100)%Qc.
Proof.
  unfold simulation_result.
  set (mask := default [] (GenerationService.valid_mask response)).
  set (words := words_of (GenerationService.generated_text response)).
  assert (H100 : (0 ≤ Qc_of_Z 100)%Qc) by (by rewrite <- Z2Qc_inj_0, <- Z2Qc_inj_le).
  destruct (decide (0 < length mask)%nat) as [Hmask|Hmask].
  - rewrite decide_True by done.
    rewrite js_div_Some by (by apply Qc_of_nat_nonzero). cbn [mbind option_bind].
    eexists. split; [reflexivity|]. cbn [validPercentage].
    apply (quality_ratio_bounds mask Hmask).
  - assert (mask = []) as Hnil by (destruct mask; [done|cbn in Hmask; lia]).
    rewrite Hnil. cbn [filter length list_filter].
    destruct (decide (0 < length words)%nat) as [Hwords|Hwords].
    + rewrite js_div_Some by (by apply Qc_of_nat_nonzero). cbn [mbind option_bind].
      eexists. split; [reflexivity|]. cbn [validPercentage].
      change (Z.of_nat 0) with 0. rewrite Z2Qc_inj_0.
      replace (0 / Qc_of_Z (Z.of_nat (length words)) * Qc_of_Z 100)%Qc with 0%Qc
        by (field; by apply Qc_of_nat_nonzero).
      done.
    + eexists. split; [reflexivity|]. done.
Qed.

Lemma publish_Some (allResults : list SimulationResult) (s : Store) :
  ∃ stats', calculateStats allResults = Some stats'
    ∧ publish allResults s
      = Some {| state := {| status := status (state s);
                            progress := progress (state s);
                            message := message (state s);
                            currentSimulation := currentSimulation (state s);
                            totalSimulations := totalSimulations (state s);
                            results := allResults;
                            stats := stats';
                            params := params (state s);
                            error_text := error_text (state s);
                            shouldStop := shouldStop (state s) |};
                storage := {| savedState := savedState (storage s);
                              savedResults := Some allResults |};
                manager := manager s |}.
Proof.
  destruct (calculateStats_total allResults) as [stats' Hstats].
  exists stats'. split; [done|]. unfold publish. by rewrite Hstats.
Qed.
































(** X23. A page that is loaded restores at most the stored results, and
    only when a saved state is found, as it is after an interrupted
    run; the parameters are not restored, so that [resume] does nothing
    and the interrupted run cannot be continued. *)
Theorem reload_forgets_run (saved : Storage) (polling : PollingManager.Manager)
    (n : GenerationService.Net) :
  ∃ s,
    restore saved (initial saved polling) = Some s
    ∧ results (state s)
      = match savedState saved with
        | Some _ => default [] (savedResults saved)
        | None => []
        end
    ∧ calculateStats (results (state s)) = Some (stats (state s))
    ∧ status (state s) = idle
    ∧ params (state s) = None
    ∧ resume backend {| store := s; net := n; frames := [] |}
      = Some {| store := s; net := n; frames := [] |}.
Proof.
  unfold restore. destruct (savedState saved) as [st|].
  - unfold appendResults.
    destruct (publish_Some (results (state (initial saved polling))
                            ++ default [] (savedResults saved))
                (initial saved polling)) as (stats' & Hstats & ->).
    eexists. split; [reflexivity|]. by repeat split.
  - eexists. split; [reflexivity|]. by repeat split.
Qed.

End monte_carlo_run.

Section monte_carlo_samples.
Import MonteCarloStore.


(** A run of three simulations that is stopped during the second one
    and resumed: the store shows 'idle' right after [stop], 'paused'
    once the call has wound down, and 'completed' with three results in
    the end. *)
Example stopped_run_sample :
  let sys := Samples.idle_system in
  let p := Samples.simulation_params 3 in
  let shown events :=
    (λ sys', (status (state (store sys')), length (results (state (store sys'))),
              currentSimulation (state (store sys')),
              length (GenerationService.sent (net sys'))))
    <$> run Samples.sampling_backend sys events in
  shown [Start p; Answered 0; Delayed 0; Stop] = Some (idle, 1%nat, 2%nat, 2%nat)
  ∧ shown [Start p; Answered 0; Delayed 0; Stop; Answered 0; Delayed 0]
    = Some (paused, 2%nat, 2%nat, 2%nat)
  ∧ shown [Start p; Answered 0; Delayed 0; Stop; Answered 0; Delayed 0;
           Resume; Answered 1; Delayed 1]
    = Some (completed, 3%nat, 3%nat, 3%nat).
Proof. repeat split; vm_compute; reflexivity. Qed.

End monte_carlo_samples.

(** ** The training store on the polling manager *)

Section managed_training_store.
Import ManagedTrainingStore.

Lemma training_key_inj (j j' : string) : training_key j = training_key j' → j = j'.
Proof. unfold training_key. intros H. by apply (inj (String.append "training-")) in H. Qed.










(** A training that is stopped and resumed: [stop] ends the polling
    and shows 'paused', and [resume] changes nothing. *)
Example stopped_training_sample :
  let s := foldl step (initial None None)
             [Start (lit "TEXT") (Qc_of_Z 100000) (Qc_of_Z 5) (JobId "job-1");
              Fire 1; Stop; Resume] in
  status (state s) = lit "paused"
  ∧ jobId (state s) = Some "job-1"
  ∧ savedJobId s = Some "job-1"
  ∧ PollingManager.getActiveJobs (manager s) = []
  ∧ checking s = ["job-1"].
Proof. repeat split; vm_compute; reflexivity. Qed.

End managed_training_store.

(** ** The Generate page *)

Section generate_view.
Import GenerationService GeneratePage GenerateView.
Context {World : Type}.
Variable backend : ApiCall → World → (jsstring * Z + GenerationResponse) * World.






End generate_view.

(** ** The histogram of a run's results *)

Section monte_carlo_results_histogram.
Import MonteCarloStore MonteCarloPage.

(** The percentage of a result is below 100 unless every counted word
    is valid and there is one. *)
Lemma simulation_result_below_100 (response : GenerationService.GenerationResponse)
    (r : SimulationResult) :
  simulation_result response = Some r →
  (0 ≤ validPercentage r ∧ validPercentage r < Qc_of_Z 100)%Qc
  ↔ (validWords r ≠ totalWords r ∨ totalWords r = 0%nat).
Proof.
  intros Hr.
  destruct (simulation_result_total response) as (r' & Hr' & H0 & H100).
  rewrite Hr in Hr'. injection Hr' as <-.
  assert (Hhundred : (0 < Qc_of_Z 100)%Qc) by (by rewrite <- Z2Qc_inj_0, <- Z2Qc_inj_lt).
  cut (validPercentage r = Qc_of_Z 100
       ↔ validWords r = totalWords r ∧ (0 < totalWords r)%nat).
  { intros Heq. split.
    - intros [_ Hlt]. destruct (decide (validWords r = totalWords r)) as [Hv|]; [|by left].
      destruct (decide (totalWords r = 0%nat)) as [|Ht]; [by right|].
      exfalso. rewrite (proj2 Heq) in Hlt by (split; [done|lia]).
      by apply (irreflexivity Qclt) in Hlt.
    - intros Hnot. split; [done|].
      apply Qcle_lt_or_eq in H100 as [|Hfull]; [done|].
      apply Heq in Hfull. lia. }
  revert Hr. unfold simulation_result.
  set (total := if decide (0 < length _)%nat then _ else _).
  set (valid := length (filter _ _)).
  destruct (decide (0 < total)%nat) as [Htotal|Htotal].
  - rewrite js_div_Some by (by apply Qc_of_nat_nonzero). cbn [mbind option_bind].
    intros [= <-]. cbn [validPercentage validWords totalWords].
    assert (Hnz : Qc_of_Z (Z.of_nat total) ≠ 0%Qc) by (by apply Qc_of_nat_nonzero).
    split.
    + intros Heq. split; [|done].
      assert (Hh : Qc_of_Z 100 ≠ 0%Qc).
      { intros Hz. rewrite Hz in Hhundred. by apply (irreflexivity Qclt) in Hhundred. }
      apply Nat2Z.inj, Z2Qc_inj.
      replace (Qc_of_Z (Z.of_nat valid))
        with (Qc_of_Z (Z.of_nat valid) / Qc_of_Z (Z.of_nat total) * Qc_of_Z 100
              / Qc_of_Z 100 * Qc_of_Z (Z.of_nat total))%Qc by (field; done).
      rewrite Heq. field. done.
    + intros [-> _]. field. done.
  - cbn [mbind option_bind]. intros [= <-]. cbn [validPercentage validWords totalWords].
    split; [|lia]. intros Heq. rewrite Heq in Hhundred.
    by apply (irreflexivity Qclt) in Hhundred.
Qed.

(** X26. The histogram of the results of a run leaves out exactly the
    perfect simulations: whatever the answers, the histogram exists and
    its bins together count the results in which some counted word is
    not valid, or in which there was no word to count; a simulation
    whose every word is valid (and which has one) is in no bin. *)
Theorem perfect_simulations_in_no_bin
    (answers : list (JsError + GenerationService.GenerationResponse)) :
  ∃ histogram,
    createHistogram (results_of answers) = Some histogram
    ∧ sum_list (map count histogram)
      = length (filter (λ r, validWords r ≠ totalWords r ∨ totalWords r = 0%nat)
                  (results_of answers)).
Proof.
  eexists. split; [apply createHistogram_entries|].
  rewrite map_map. cbn [count]. rewrite createHistogram_counted.
  assert (Hall : Forall (λ r, ∃ response, simulation_result response = Some r)
                   (results_of answers)).
  { apply Forall_forall. intros r (outcome & _ & Hr)%list_elem_of_omap.
    destruct outcome as [|response]; [done|]. by exists response. }
  induction Hall as [|r results (response & Hr) _ IH]; [done|].
  pose proof (simulation_result_below_100 response r Hr) as Hiff.
  rewrite !filter_cons.
  destruct (decide (_ ∧ _)) as [Hin|Hout], (decide (_ ∨ _)) as [Hyes|Hno];
    cbn [length]; try (by rewrite IH); tauto.
Qed.

End monte_carlo_results_histogram.
